(** * ML Studio: rule conditions ([ml_studio/services/validation/conditions.py])

    A shallow embedding of the composite of rule conditions: the classes
    [BaseCondition], [Condition] and [ConditionSet], with the Python values
    they handle, the exceptions they can raise and the lines they print.

    Python objects are mutable and every method of the module returns
    [self]; here a method takes the object's state and returns the state
    after the call, together with what the call printed or raised where it
    can do so. A [ConditionSet] owns its children: the composite is a tree,
    each child stored once, under its id, in the set's ordered dictionary.
    A method that mutates a child in place (through [condition.on(value)],
    [condition.attribute(value)] or [condition.evaluate]) is modelled by
    putting the child's new state in the child's slot. *)

From Stdlib Require Import String ZArith List Bool Lia.
Import ListNotations.

Set Implicit Arguments.
Open Scope string_scope.

(* ------------------------------------------------------------------------- *)
(** ** Python values, exceptions, attribute lookup *)
(* ------------------------------------------------------------------------- *)

(** The values that operands, target instances and validity states range
    over: [None], booleans, integers, strings, and instances of classes with
    their data attributes in definition order. *)
#[local] Unset Elimination Schemes.
Inductive value : Type :=
| VNone
| VBool (b : bool)
| VInt (n : Z)
| VStr (s : string)
| VObj (cls : string) (attrs : list (string * value)).
#[local] Set Elimination Schemes.

(** [type(v).__name__]. *)
Definition class_name (v : value) : string :=
  match v with
  | VNone => "NoneType"
  | VBool _ => "bool"
  | VInt _ => "int"
  | VStr _ => "str"
  | VObj cls _ => cls
  end.

(** [isinstance(v, str)]. *)
Definition is_str (v : value) : bool :=
  match v with VStr _ => true | _ => false end.

(** [bool(v)], as [all] and [any] test their items. *)
Definition truthy (v : value) : bool :=
  match v with
  | VNone => false
  | VBool b => b
  | VInt n => negb (n =? 0)%Z
  | VStr s => negb (s =? "")
  | VObj _ _ => true
  end.

(** The exceptions met in the module. None is defined by the module itself:
    all are Python's own. *)
Inductive exn : Type :=
| TypeError (msg : string)
| KeyError (key : string)
| NotImplementedError (msg : string).

(** How a call that returns a value ends. *)
Inductive result (A : Type) : Type :=
| Return (a : A)
| Raise (e : exn).
Arguments Return {A} a.
Arguments Raise {A} e.

(** How a call that returns [self] ends; the state it leaves is given
    beside it. *)
Inductive completion : Type :=
| Returned
| Raised (e : exn).

(** [getattr(o, name)]: the attribute's value, or [None] where Python raises
    [AttributeError]. Which names an object answers to is Python's business
    (data attributes, and whatever its class provides), so it is left open;
    [data_attributes] below is the instance used in the scenarios. *)
Class ObjectModel : Type :=
  { getattr : value -> string -> option value }.

(** [hasattr(o, name)]: Python 3 implements it as [getattr] not raising
    [AttributeError]. *)
Definition hasattr `{ObjectModel} (o : value) (name : string) : bool :=
  match getattr o name with Some _ => true | None => false end.

(* ------------------------------------------------------------------------- *)
(** ** [ml_studio.services.validation.utils] *)
(* ------------------------------------------------------------------------- *)

(** The predicates imported from [utils] (lines 41-49). A [Condition] stores
    one of them, by reference, in [_eval_function]. *)
Module utils.
Inductive function : Type :=
| is_array | is_homogeneous_array | is_simple_array
| is_none | is_not_none | is_empty | is_not_empty
| is_bool | is_integer | is_number | is_string
| is_less | is_less_equal | is_greater | is_greater_equal
| is_match | is_equal | is_not_equal.
End utils.

(** Line 53: the predicates of one operand. *)
Definition SYNTACTIC_EVAL_FUNCTIONS : list utils.function :=
  [utils.is_array; utils.is_homogeneous_array; utils.is_simple_array;
   utils.is_none; utils.is_not_none; utils.is_empty; utils.is_not_empty;
   utils.is_bool; utils.is_integer; utils.is_number; utils.is_string].

(** The bodies of the predicates are not in [conditions.py]: what calling
    predicate [f] on the positional arguments [args] returns or raises is a
    parameter of the development. *)
Class PredicateLibrary : Type :=
  { call : utils.function -> list value -> result value }.

(** Calling what [_eval_function] holds: a predicate, or [None] when no
    selector has run, and calling [None] is a [TypeError]. *)
Definition py_call `{PredicateLibrary}
    (f : option utils.function) (args : list value) : result value :=
  match f with
  | Some f => call f args
  | None => Raise (TypeError "'NoneType' object is not callable")
  end.

(* ------------------------------------------------------------------------- *)
(** ** [collections.OrderedDict] with string keys *)
(* ------------------------------------------------------------------------- *)

Module OrderedDict.
Section Dict.
Variable V : Type.

(** The items in insertion order; no key occurs twice ([well_formed]). *)
Definition t : Type := list (string * V).

Definition empty : t := [].

Definition items (d : t) : list (string * V) := d.

Definition keys (d : t) : list string := map fst d.

Definition values (d : t) : list V := map snd d.

(** [key in d]. *)
Fixpoint contains (d : t) (key : string) : bool :=
  match d with
  | [] => false
  | (k, _) :: rest => if k =? key then true else contains rest key
  end.

(** [d[key]], a [KeyError] when the key is absent. *)
Fixpoint getitem (d : t) (key : string) : result V :=
  match d with
  | [] => Raise (KeyError key)
  | (k, v) :: rest => if k =? key then Return v else getitem rest key
  end.

(** [d[key] = v]: a key already present keeps its position and gets the
    new value, a new key goes to the end. *)
Fixpoint setitem (d : t) (key : string) (v : V) : t :=
  match d with
  | [] => [(key, v)]
  | (k, v0) :: rest =>
      if k =? key then (k, v) :: rest else (k, v0) :: setitem rest key v
  end.

Fixpoint remove (d : t) (key : string) : t :=
  match d with
  | [] => []
  | (k, v) :: rest => if k =? key then rest else (k, v) :: remove rest key
  end.

(** [del d[key]], a [KeyError] when the key is absent. *)
Definition delitem (d : t) (key : string) : result t :=
  if contains d key then Return (remove d key) else Raise (KeyError key).

Definition well_formed (d : t) : Prop := NoDup (keys d).
End Dict.

Arguments empty {V}.

(** Every stored object mutated in place by [f]; keys and order stay. *)
Definition map_values {V W : Type} (f : V -> W) (d : t V) : t W :=
  map (fun kv => (fst kv, f (snd kv))) d.
End OrderedDict.

(* ------------------------------------------------------------------------- *)
(** ** [BaseCondition] *)
(* ------------------------------------------------------------------------- *)

Module BaseCondition.
(** The instance variables set by [__init__] (lines 60-69). *)
Record t : Type := mk
  { _id : string;
    _created : string;
    _creator : string;
    _is_valid : value;
    _evaluated_instance : value;
    _evaluated_attribute : option string }.

(** [__init__], given what [str(uuid4())], [datetime.now()] and
    [getpass.getuser()] return. *)
Definition init (uuid4 now user : string) : t :=
  {| _id := uuid4;
     _created := now;
     _creator := user;
     _is_valid := VBool true;
     _evaluated_instance := VNone;
     _evaluated_attribute := None |}.

Definition set_is_valid (self : t) (v : value) : t :=
  {| _id := _id self;
     _created := _created self;
     _creator := _creator self;
     _is_valid := v;
     _evaluated_instance := _evaluated_instance self;
     _evaluated_attribute := _evaluated_attribute self |}.

Definition set_evaluated_instance (self : t) (v : value) : t :=
  {| _id := _id self;
     _created := _created self;
     _creator := _creator self;
     _is_valid := _is_valid self;
     _evaluated_instance := v;
     _evaluated_attribute := _evaluated_attribute self |}.

Definition set_evaluated_attribute (self : t) (v : option string) : t :=
  {| _id := _id self;
     _created := _created self;
     _creator := _creator self;
     _is_valid := _is_valid self;
     _evaluated_instance := _evaluated_instance self;
     _evaluated_attribute := v |}.

(** Lines 78-84. [copy.deepcopy] of a string is the string. *)
Definition id (self : t) : string := _id self.
Definition is_valid (self : t) : value := _is_valid self.

(** Lines 86-88. *)
Definition on (value : value) (self : t) : t :=
  set_evaluated_instance self value.

(** The line printed when the attribute is refused (lines 95-97). *)
Definition not_a_valid_attribute (attr : string) (instance : value) : string :=
  attr ++ " is not a valid attribute for the " ++ class_name instance
       ++ " class.".

(** Lines 90-98: the state after the call and the lines printed. *)
Definition attribute `{ObjectModel} (value : string) (self : t)
  : t * list string :=
  if hasattr (_evaluated_instance self) value
  then (set_evaluated_attribute self (Some value), [])
  else (self, [not_a_valid_attribute value (_evaluated_instance self)]).

(** Lines 100-106. *)
Definition evaluated_instance (self : t) : value := _evaluated_instance self.
Definition evaluated_attribute (self : t) : option string :=
  _evaluated_attribute self.
End BaseCondition.

(* ------------------------------------------------------------------------- *)
(** ** [Condition] *)
(* ------------------------------------------------------------------------- *)

Module Condition.
(** The inherited instance variables ([base]) and those added by
    [Condition.__init__] (lines 272-279). *)
Record t : Type := mk
  { base : BaseCondition.t;
    _a : value;
    _b : value;
    _a_attribute : value;
    _b_attribute : value;
    _eval_function : option utils.function }.

Definition set_base (self : t) (b : BaseCondition.t) : t :=
  {| base := b; _a := _a self; _b := _b self;
     _a_attribute := _a_attribute self; _b_attribute := _b_attribute self;
     _eval_function := _eval_function self |}.

Definition set_a (self : t) (v : value) : t :=
  {| base := base self; _a := v; _b := _b self;
     _a_attribute := _a_attribute self; _b_attribute := _b_attribute self;
     _eval_function := _eval_function self |}.

Definition set_b (self : t) (v : value) : t :=
  {| base := base self; _a := _a self; _b := v;
     _a_attribute := _a_attribute self; _b_attribute := _b_attribute self;
     _eval_function := _eval_function self |}.

Definition set_eval_function (self : t) (f : option utils.function) : t :=
  {| base := base self; _a := _a self; _b := _b self;
     _a_attribute := _a_attribute self; _b_attribute := _b_attribute self;
     _eval_function := f |}.

Definition _id (self : t) : string := BaseCondition._id (base self).
Definition _is_valid (self : t) : value := BaseCondition._is_valid (base self).
Definition _evaluated_instance (self : t) : value :=
  BaseCondition._evaluated_instance (base self).
Definition _evaluated_attribute (self : t) : option string :=
  BaseCondition._evaluated_attribute (base self).

Definition set_is_valid (self : t) (v : value) : t :=
  set_base self (BaseCondition.set_is_valid (base self) v).

(** Lines 272-279. *)
Definition init (uuid4 now user : string) : t :=
  {| base := BaseCondition.set_is_valid (BaseCondition.init uuid4 now user)
               (VStr "Not evaluated.");
     _a := VNone;
     _b := VNone;
     _a_attribute := VNone;
     _b_attribute := VNone;
     _eval_function := None |}.

(** Lines 281-282. *)
Definition _reset (self : t) : t := set_is_valid self (VStr "Not evaluated.").

(** Inherited from [BaseCondition]. *)
Definition id (self : t) : string := BaseCondition.id (base self).
Definition is_valid (self : t) : value := BaseCondition.is_valid (base self).
Definition on (value : value) (self : t) : t :=
  set_base self (BaseCondition.on value (base self)).
Definition attribute `{ObjectModel} (value : string) (self : t)
  : t * list string :=
  let (b, out) := BaseCondition.attribute value (base self) in
  (set_base self b, out).

(** Lines 288-298. *)
Definition when (value : value) (self : t) : t := set_a self value.
Definition b (self : t) : value := _b self.
Definition b_setter (value : value) (self : t) : t := set_b self value.

(** Lines 300-338: the selectors of a predicate of one operand. *)
Definition is_none (self : t) : t :=
  set_eval_function self (Some utils.is_none).
Definition is_not_none (self : t) : t :=
  set_eval_function self (Some utils.is_not_none).
Definition is_empty (self : t) : t :=
  set_eval_function self (Some utils.is_empty).
Definition is_not_empty (self : t) : t :=
  set_eval_function self (Some utils.is_not_empty).
Definition is_bool (self : t) : t :=
  set_eval_function self (Some utils.is_bool).
Definition is_integer (self : t) : t :=
  set_eval_function self (Some utils.is_integer).
Definition is_number (self : t) : t :=
  set_eval_function self (Some utils.is_number).
Definition is_string (self : t) : t :=
  set_eval_function self (Some utils.is_string).

(** Lines 340-373: the selectors of a predicate of two operands. *)
Definition is_equal (b : value) (self : t) : t :=
  set_eval_function (set_b self b) (Some utils.is_equal).
Definition is_not_equal (b : value) (self : t) : t :=
  set_eval_function (set_b self b) (Some utils.is_not_equal).
Definition is_less (b : value) (self : t) : t :=
  set_eval_function (set_b self b) (Some utils.is_less).
Definition is_less_equal (b : value) (self : t) : t :=
  set_eval_function (set_b self b) (Some utils.is_less_equal).
Definition is_greater (b : value) (self : t) : t :=
  set_eval_function (set_b self b) (Some utils.is_greater).
Definition is_greater_equal (b : value) (self : t) : t :=
  set_eval_function (set_b self b) (Some utils.is_greater_equal).
Definition is_match (b : value) (self : t) : t :=
  set_eval_function (set_b self b) (Some utils.is_match).

(** Lines 376-384: a string is looked up on the evaluated instance and
    stands for itself when the lookup raises [AttributeError]; any other
    value stands for itself. *)
Definition _get_value `{ObjectModel} (self : t) (a : value) : value :=
  match a with
  | VStr name =>
      match getattr (_evaluated_instance self) name with
      | Some value => value
      | None => a
      end
  | _ => a
  end.

(** Lines 386-392. When the call of the predicate raises, the assignments
    made before it stay and [_is_valid] is not assigned. *)
Definition evaluate `{ObjectModel} `{PredicateLibrary} (self : t)
  : t * completion :=
  let self := _reset self in
  let self := set_a self (_get_value self (_a self)) in
  let self := set_b self (_get_value self (_b self)) in
  match py_call (_eval_function self) [_a self; _b self] with
  | Return v => (set_is_valid self v, Returned)
  | Raise e => (self, Raised e)
  end.
End Condition.

(** The state in which [Condition.evaluate] calls the predicate: validity
    reset, both operands resolved against the evaluated instance. *)
Definition resolved `{ObjectModel} (c : Condition.t) : Condition.t :=
  Condition.set_b
    (Condition.set_a (Condition._reset c)
       (Condition._get_value c (Condition._a c)))
    (Condition._get_value c (Condition._b c)).

(* ------------------------------------------------------------------------- *)
(** ** [ConditionSet] *)
(* ------------------------------------------------------------------------- *)

(** Python's [all] and [any] on a list of values. *)
Definition all (l : list value) : bool := forallb truthy l.
Definition any (l : list value) : bool := existsb truthy l.

Module ConditionSet.
(** The inherited instance variables ([base]) and those added by
    [ConditionSet.__init__] (lines 148-151). [N] is the type of the
    children, which are conditions or condition sets ([node] below). *)
Record t (N : Type) : Type := mk
  { base : BaseCondition.t;
    _logical : string;
    _conditions : OrderedDict.t N }.
Arguments mk {N} base _logical _conditions.

Section Methods.
Context {N : Type}.

(** What a method called on a child does is decided by the child's
    class; the methods of the set take it as given. *)
Variable child_id : N -> string.
Variable child_is_valid : N -> value.
Variable child_on : value -> N -> N.
Variable child_attribute : string -> N -> N * list string.
Variable child_evaluate : N -> N * completion.

Definition set_base (self : t N) (b : BaseCondition.t) : t N :=
  mk b (_logical self) (_conditions self).
Definition set_logical (self : t N) (l : string) : t N :=
  mk (base self) l (_conditions self).
Definition set_conditions (self : t N) (d : OrderedDict.t N) : t N :=
  mk (base self) (_logical self) d.

Definition _id (self : t N) : string := BaseCondition._id (base self).
Definition _is_valid (self : t N) : value :=
  BaseCondition._is_valid (base self).
Definition _evaluated_instance (self : t N) : value :=
  BaseCondition._evaluated_instance (base self).
Definition _evaluated_attribute (self : t N) : option string :=
  BaseCondition._evaluated_attribute (base self).

Definition set_is_valid (self : t N) (v : value) : t N :=
  set_base self (BaseCondition.set_is_valid (base self) v).

(** Lines 148-151. *)
Definition init (uuid4 now user : string) : t N :=
  mk (BaseCondition.init uuid4 now user) "all" OrderedDict.empty.

(** Lines 153-154. *)
Definition reset (self : t N) : t N := set_conditions self OrderedDict.empty.

(** Inherited from [BaseCondition]. *)
Definition id (self : t N) : string := BaseCondition.id (base self).
Definition is_valid (self : t N) : value := BaseCondition.is_valid (base self).

(** Lines 164-168, for [condition=None] and for a condition. *)
Definition get_conditions (self : t N) : OrderedDict.t N := _conditions self.
Definition get_condition (self : t N) (condition : N) : result N :=
  OrderedDict.getitem (_conditions self) (child_id condition).

(** Lines 170-172. *)
Definition add_condition (self : t N) (condition : N) : t N :=
  set_conditions self
    (OrderedDict.setitem (_conditions self) (child_id condition) condition).

(** Lines 174-176. *)
Definition remove_condition (self : t N) (condition : N) : result (t N) :=
  match OrderedDict.delitem (_conditions self) (child_id condition) with
  | Return d => Return (set_conditions self d)
  | Raise e => Raise e
  end.

(** Lines 181-198. *)
Definition logical (self : t N) : string := _logical self.
Definition when_all_conditions_are_true (self : t N) : t N :=
  set_logical self "all".
Definition when_any_condition_is_true (self : t N) : t N :=
  set_logical self "any".
Definition when_no_conditions_are_true (self : t N) : t N :=
  set_logical self "none".

(** Lines 200-208. [self] is a [ConditionSet], so the test of line 203
    holds and the loop runs: every child is sent [on(value)]. *)
Definition on (value : value) (self : t N) : t N :=
  let self := set_base self (BaseCondition.on value (base self)) in
  set_conditions self
    (OrderedDict.map_values (child_on value) (_conditions self)).

(** The loop of lines 220-221: every child is sent [attribute(value)],
    in the order of the dictionary; what the children print comes out
    in that order. *)
Fixpoint attribute_children (value : string) (items : list (string * N))
  : list (string * N) * list string :=
  match items with
  | [] => ([], [])
  | (key, condition) :: rest =>
      let (condition, out) := child_attribute value condition in
      let (rest, outs) := attribute_children value rest in
      ((key, condition) :: rest, (out ++ outs)%list)
  end.

(** Lines 210-224. Lines 213-218 are the body of
    [BaseCondition.attribute]; the test of line 219 holds. *)
Definition attribute `{ObjectModel} (value : string) (self : t N)
  : t N * list string :=
  let (b, out) := BaseCondition.attribute value (base self) in
  let self := set_base self b in
  let (children, outs) :=
    attribute_children value (OrderedDict.items (_conditions self)) in
  (set_conditions self children, (out ++ outs)%list).

(** Line 233: each child in turn is evaluated and stored again under its
    id. A child that raises has been changed in place up to the point
    where it raised; it stays in its slot, [add_condition] is not
    reached and the exception leaves the loop. *)
Fixpoint evaluate_children (items : list (string * N)) (self : t N)
  : t N * completion :=
  match items with
  | [] => (self, Returned)
  | (key, condition) :: rest =>
      match child_evaluate condition with
      | (condition, Returned) =>
          evaluate_children rest (add_condition self condition)
      | (condition, Raised e) =>
          (set_conditions self
             (OrderedDict.setitem (_conditions self) key condition),
           Raised e)
      end
  end.

(** Lines 229-246. *)
Definition evaluate (self : t N) : t N * completion :=
  match evaluate_children (OrderedDict.items (_conditions self)) self with
  | (self, Raised e) => (self, Raised e)
  | (self, Returned) =>
      let is_valid :=
        map (fun kc => child_is_valid (snd kc))
            (OrderedDict.items (_conditions self)) in
      if _logical self =? "all" then
        (set_is_valid self (VBool (all is_valid)), Returned)
      else if _logical self =? "any" then
        (set_is_valid self (VBool (any is_valid)), Returned)
      else
        (set_is_valid self (VBool (negb (any is_valid))), Returned)
  end.
End Methods.
End ConditionSet.

(* ------------------------------------------------------------------------- *)
(** ** The composite *)
(* ------------------------------------------------------------------------- *)

(** An object of a subclass of [BaseCondition]. *)
#[local] Unset Elimination Schemes.
Inductive node : Type :=
| Atomic (c : Condition.t)
| Composite (s : ConditionSet.t node).
#[local] Set Elimination Schemes.

(** Attribute reads and method calls on a child, by the child's class. *)
Definition node_id (condition : node) : string :=
  match condition with
  | Atomic c => Condition.id c
  | Composite s => ConditionSet.id s
  end.

Definition node_is_valid (condition : node) : value :=
  match condition with
  | Atomic c => Condition.is_valid c
  | Composite s => ConditionSet.is_valid s
  end.

Definition node_evaluated_instance (condition : node) : value :=
  match condition with
  | Atomic c => Condition._evaluated_instance c
  | Composite s => ConditionSet._evaluated_instance s
  end.

Definition node_evaluated_attribute (condition : node) : option string :=
  match condition with
  | Atomic c => Condition._evaluated_attribute c
  | Composite s => ConditionSet._evaluated_attribute s
  end.

Fixpoint node_on (value : value) (condition : node) : node :=
  match condition with
  | Atomic c => Atomic (Condition.on value c)
  | Composite s => Composite (ConditionSet.on node_on value s)
  end.

Fixpoint node_attribute `{ObjectModel} (value : string) (condition : node)
  : node * list string :=
  match condition with
  | Atomic c =>
      let (c, out) := Condition.attribute value c in (Atomic c, out)
  | Composite s =>
      let (s, out) := ConditionSet.attribute node_attribute value s in
      (Composite s, out)
  end.

Fixpoint node_evaluate `{ObjectModel} `{PredicateLibrary} (condition : node)
  : node * completion :=
  match condition with
  | Atomic c =>
      let (c, r) := Condition.evaluate c in (Atomic c, r)
  | Composite s =>
      let (s, r) := ConditionSet.evaluate node_id node_is_valid node_evaluate s in
      (Composite s, r)
  end.

(** The children of a node, in the order of the dictionary, and the nodes
    below it at any depth. *)
Definition children (condition : node) : list node :=
  match condition with
  | Atomic _ => []
  | Composite s => OrderedDict.values (ConditionSet._conditions s)
  end.

Fixpoint subtree (condition : node) : list node :=
  condition ::
    match condition with
    | Atomic _ => []
    | Composite s =>
        flat_map (fun kc => subtree (snd kc)) (ConditionSet._conditions s)
    end.

Definition descendants (condition : node) : list node :=
  match condition with
  | Atomic _ => []
  | Composite s =>
      flat_map (fun kc => subtree (snd kc)) (ConditionSet._conditions s)
  end.

(** The dictionary of a set as [add_condition] builds it: no key twice,
    every child under its own id. *)
Definition keyed_by_id (s : ConditionSet.t node) : Prop :=
  OrderedDict.well_formed (ConditionSet._conditions s)
  /\ Forall (fun kc => fst kc = node_id (snd kc)) (ConditionSet._conditions s).

(** What [attribute(name)] does to one node: the name is stored when the
    node's own evaluated instance has such an attribute, and the node keeps
    what it had when not. *)
Definition rebound `{ObjectModel} (name : string) (before after : node) : Prop :=
  node_id after = node_id before
  /\ node_evaluated_instance after = node_evaluated_instance before
  /\ node_evaluated_attribute after
     = if hasattr (node_evaluated_instance before) name
       then Some name
       else node_evaluated_attribute before.

(* ------------------------------------------------------------------------- *)
(** ** Instances for the scenarios *)
(* ------------------------------------------------------------------------- *)

(** Objects that answer to their data attributes and to nothing else: the
    names every Python object answers to through its class ([__class__],
    the methods of [int] and [str]) are left out, and the scenarios use
    none of them. *)
Fixpoint lookup (name : string) (attrs : list (string * value)) : option value :=
  match attrs with
  | [] => None
  | (k, v) :: rest => if k =? name then Some v else lookup name rest
  end.

Definition data_attributes : ObjectModel :=
  {| getattr o name :=
       match o with
       | VObj _ attrs => lookup name attrs
       | _ => None
       end |}.

(** Modelled from the spec: Python's comparisons and tests on the values
    above, from which the predicates of [utils.py] are put together in
    [utils_model.call]. *)
Module utils_model.
(** [a == b]: a [bool] is an [int]; objects are equal when they are the
    same object. *)
Definition as_number (v : value) : option Z :=
  match v with
  | VInt n => Some n
  | VBool b => Some (Z.b2z b)
  | _ => None
  end.

Fixpoint equal (a b : value) : bool :=
  match a, b with
  | VNone, VNone => true
  | VBool x, VBool y => Bool.eqb x y
  | VInt x, VInt y => (x =? y)%Z
  | VBool x, VInt y => (Z.b2z x =? y)%Z
  | VInt x, VBool y => (x =? Z.b2z y)%Z
  | VStr x, VStr y => (x =? y)%string
  | VObj c1 attrs1, VObj c2 attrs2 =>
      (c1 =? c2)%string
      && (fix go (l1 l2 : list (string * value)) : bool :=
            match l1, l2 with
            | [], [] => true
            | (k1, v1) :: r1, (k2, v2) :: r2 =>
                (k1 =? k2)%string && equal v1 v2 && go r1 r2
            | _, _ => false
            end) attrs1 attrs2
  | _, _ => false
  end.

(** [a < b] and the like: numbers with numbers, strings with strings, a
    [TypeError] for any other pair. *)
Definition ordered (op : string) (num : Z -> Z -> bool)
    (str : string -> string -> bool) (a b : value) : result value :=
  match as_number a, as_number b with
  | Some x, Some y => Return (VBool (num x y))
  | _, _ =>
      match a, b with
      | VStr s, VStr t => Return (VBool (str s t))
      | _, _ =>
          Raise (TypeError ("'" ++ op ++ "' not supported between instances of '"
                            ++ class_name a ++ "' and '" ++ class_name b ++ "'"))
      end
  end.

Definition empty (a : value) : bool :=
  match a with
  | VNone => true
  | VStr s => (s =? "")%string
  | _ => false
  end.

Definition unary (name : string) (test : value -> bool) (args : list value)
  : result value :=
  match args with
  | [a] | [a; _] => Return (VBool (test a))
  | _ => Raise (TypeError (name ++ "() takes from 1 to 2 positional arguments"))
  end.

Definition binary (name : string) (body : value -> value -> result value)
    (args : list value) : result value :=
  match args with
  | [a; b] => body a b
  | _ => Raise (TypeError (name ++ "() takes 2 positional arguments"))
  end.

(** Modelled from the spec: the bodies of the predicates of
    [ml_studio/services/validation/utils.py], which is not among the
    sources. The spec has them as named pure predicates of one value or
    of two, returning a boolean: tests for [None], for emptiness and for
    the type of a value, equality, order, and a pattern match. *)
Definition call (f : utils.function) : list value -> result value :=
  match f with
  | utils.is_array => unary "is_array" (fun _ => false)
  | utils.is_homogeneous_array => unary "is_homogeneous_array" (fun _ => false)
  | utils.is_simple_array => unary "is_simple_array" (fun _ => false)
  | utils.is_none =>
      unary "is_none" (fun a => match a with VNone => true | _ => false end)
  | utils.is_not_none =>
      unary "is_not_none" (fun a => match a with VNone => false | _ => true end)
  | utils.is_empty => unary "is_empty" empty
  | utils.is_not_empty => unary "is_not_empty" (fun a => negb (empty a))
  | utils.is_bool =>
      unary "is_bool" (fun a => match a with VBool _ => true | _ => false end)
  | utils.is_integer =>
      unary "is_integer" (fun a => match a with VInt _ => true | _ => false end)
  | utils.is_number =>
      unary "is_number" (fun a => match a with VInt _ => true | _ => false end)
  | utils.is_string => unary "is_string" is_str
  | utils.is_less => binary "is_less" (ordered "<" Z.ltb String.ltb)
  | utils.is_less_equal => binary "is_less_equal" (ordered "<=" Z.leb String.leb)
  | utils.is_greater =>
      binary "is_greater"
        (ordered ">" Z.gtb (fun s t => String.ltb t s))
  | utils.is_greater_equal =>
      binary "is_greater_equal"
        (ordered ">=" Z.geb (fun s t => String.leb t s))
  | utils.is_match =>
      binary "is_match"
        (fun _ _ => Raise (NotImplementedError "regular expressions"))
  | utils.is_equal =>
      binary "is_equal" (fun a b => Return (VBool (equal a b)))
  | utils.is_not_equal =>
      binary "is_not_equal" (fun a b => Return (VBool (negb (equal a b))))
  end.
End utils_model.

(** Modelled from the spec: [ml_studio/services/validation/utils.py], which
    [conditions.py] imports its predicates from, is not among the sources.
    The spec has it as a fixed set of named pure predicates, of one value
    or of two, returning a boolean: tests for [None], for emptiness and for
    the type of a value, equality, order, and a pattern match.
    [Condition.evaluate] calls every one of them on two positional
    arguments, so here the predicates of one value accept, and ignore, a
    second. The values have no arrays, so the array tests are false, and
    no regular expressions, so [is_match] is left out
    ([NotImplementedError]). *)
Definition utils_model_library : PredicateLibrary :=
  {| call := utils_model.call |}.

(** A library that answers every call with the number of arguments it
    received: a probe for how [Condition.evaluate] calls its predicate. *)
Definition argument_count_probe : PredicateLibrary :=
  {| call _ args := Return (VInt (Z.of_nat (length args))) |}.

Module Scenario.
(** What [uuid4], [datetime.now] and [getpass.getuser] answer. *)
Definition now : string := "2019-12-29 13:30:56".
Definition user : string := "jjames".

Definition new_Condition (uuid4 : string) : Condition.t :=
  Condition.init uuid4 now user.
Definition new_ConditionSet (uuid4 : string) : ConditionSet.t node :=
  ConditionSet.init uuid4 now user.

(** An object with two attributes, the first naming the second. *)
Definition chained : value := VObj "Chained" [("x", VStr "y"); ("y", VInt 7)].

(** An object with the one attribute [x]. *)
Definition point : value := VObj "Point" [("x", VInt 1)].

(** An object whose attributes [x] and [y] are numbers. *)
Definition numbers : value := VObj "Numbers" [("x", VInt 100); ("y", VInt 200)].

(** [Condition().when(a).is_greater(b)]. *)
Definition greater (uuid4 : string) (a b : Z) : Condition.t :=
  Condition.is_greater (VInt b) (Condition.when (VInt a) (new_Condition uuid4)).

(** A set under "all" of a condition that holds and one that does not. *)
Definition mixed : ConditionSet.t node :=
  ConditionSet.add_condition node_id
    (ConditionSet.add_condition node_id (new_ConditionSet "s1")
       (Atomic (greater "c1" 5 3)))
    (Atomic (greater "c2" 1 3)).

(** [Condition().on(chained).when("x").is_equal(7)]. *)
Definition selector : Condition.t :=
  Condition.is_equal (VInt 7)
    (Condition.when (VStr "x") (Condition.on chained (new_Condition "c1"))).

(** A set of one condition, bound to [point] and to its attribute [x]
    through the set. *)
Definition bound_to_x `{ObjectModel} : ConditionSet.t node :=
  fst (ConditionSet.attribute node_attribute "x"
         (ConditionSet.on node_on point
            (ConditionSet.add_condition node_id (new_ConditionSet "s1")
               (Atomic (new_Condition "c1"))))).
End Scenario.

Module Examples.
(** A set under "all" of two conditions that hold. *)
Definition both : ConditionSet.t node :=
  ConditionSet.add_condition node_id
    (ConditionSet.add_condition node_id (Scenario.new_ConditionSet "s2")
       (Atomic (Scenario.greater "c3" 5 3)))
    (Atomic (Scenario.greater "c4" 7 3)).

(** A set under "any" of the set [both] and of a condition that does not
    hold. *)
Definition nested : ConditionSet.t node :=
  ConditionSet.add_condition node_id
    (ConditionSet.add_condition node_id
       (ConditionSet.when_any_condition_is_true
          (Scenario.new_ConditionSet "s1"))
       (Composite both))
    (Atomic (Scenario.greater "c2" 1 3)).

(** A set whose second condition has no predicate selected. *)
Definition unconfigured : ConditionSet.t node :=
  ConditionSet.add_condition node_id
    (ConditionSet.add_condition node_id
       (ConditionSet.add_condition node_id (Scenario.new_ConditionSet "s1")
          (Atomic (Scenario.greater "c1" 5 3)))
       (Atomic (Scenario.new_Condition "c2")))
    (Atomic (Scenario.greater "c3" 1 3)).
End Examples.

(* ------------------------------------------------------------------------- *)
(** ** Notions for the whole tree *)
(* ------------------------------------------------------------------------- *)

(** The conditions at the leaves of a tree, in the order of the
    dictionaries. *)
Fixpoint conditions_of (condition : node) : list Condition.t :=
  match condition with
  | Atomic c => [c]
  | Composite s =>
      flat_map (fun kc => conditions_of (snd kc)) (ConditionSet._conditions s)
  end.

(** Every set of the tree has its dictionary keyed by the ids of its
    children. *)
Fixpoint deeply_keyed (condition : node) : Prop :=
  match condition with
  | Atomic _ => True
  | Composite s =>
      keyed_by_id s
      /\ (fix each (l : list (string * node)) : Prop :=
            match l with
            | [] => True
            | kc :: rest => deeply_keyed (snd kc) /\ each rest
            end) (ConditionSet._conditions s)
  end.

(** The truth value of a tree, read off its conditions without touching
    any state: a condition counts as what its own [evaluate] leaves as
    validity, a set combines its children by its [_logical]. *)
Fixpoint verdict `{ObjectModel} `{PredicateLibrary} (condition : node) : bool :=
  match condition with
  | Atomic c => truthy (Condition._is_valid (fst (Condition.evaluate c)))
  | Composite s =>
      let verdicts :=
        map (fun kc => verdict (snd kc)) (ConditionSet._conditions s) in
      if ConditionSet._logical s =? "all" then forallb (fun b => b) verdicts
      else if ConditionSet._logical s =? "any" then existsb (fun b => b) verdicts
      else negb (existsb (fun b => b) verdicts)
  end.

(** How a sequence of calls made one after the other ends as a whole: as
    the first that raises, if any does. *)
Fixpoint first_raised (l : list completion) : completion :=
  match l with
  | [] => Returned
  | Returned :: rest => first_raised rest
  | Raised e :: _ => Raised e
  end.

(** The line a node prints when sent [attribute(name)], if any. *)
Definition diagnostic `{ObjectModel} (name : string) (condition : node)
  : list string :=
  if hasattr (node_evaluated_instance condition) name then []
  else [BaseCondition.not_a_valid_attribute name
          (node_evaluated_instance condition)].

(** Two states of a node with the same id and the same evaluation
    context. *)
Definition same_context (before after : node) : Prop :=
  node_id after = node_id before
  /\ node_evaluated_instance after = node_evaluated_instance before
  /\ node_evaluated_attribute after = node_evaluated_attribute before.

(** The selectors of [Condition], each with the predicate of its name. *)
Definition unary_selectors
  : list ((Condition.t -> Condition.t) * utils.function) :=
  [(Condition.is_none, utils.is_none);
   (Condition.is_not_none, utils.is_not_none);
   (Condition.is_empty, utils.is_empty);
   (Condition.is_not_empty, utils.is_not_empty);
   (Condition.is_bool, utils.is_bool);
   (Condition.is_integer, utils.is_integer);
   (Condition.is_number, utils.is_number);
   (Condition.is_string, utils.is_string)].

Definition binary_selectors
  : list ((value -> Condition.t -> Condition.t) * utils.function) :=
  [(Condition.is_equal, utils.is_equal);
   (Condition.is_not_equal, utils.is_not_equal);
   (Condition.is_less, utils.is_less);
   (Condition.is_less_equal, utils.is_less_equal);
   (Condition.is_greater, utils.is_greater);
   (Condition.is_greater_equal, utils.is_greater_equal);
   (Condition.is_match, utils.is_match)].

(* ------------------------------------------------------------------------- *)
(** ** Reasoning principles *)
(* ------------------------------------------------------------------------- *)

(** Induction on a node, with the property known of every child. *)
Section NodeInduction.
Variable P : node -> Prop.
Hypothesis P_atomic : forall c, P (Atomic c).
Hypothesis P_composite :
  forall s,
    Forall (fun kc => P (snd kc)) (ConditionSet._conditions s) ->
    P (Composite s).

Fixpoint node_induction (condition : node) : P condition :=
  match condition with
  | Atomic c => P_atomic c
  | Composite s =>
      P_composite s
        ((fix each (l : list (string * node))
            : Forall (fun kc => P (snd kc)) l :=
            match l with
            | [] => Forall_nil _
            | kc :: rest => Forall_cons kc (node_induction (snd kc)) (each rest)
            end) (ConditionSet._conditions s))
  end.
End NodeInduction.

(** *** The ordered dictionary *)

Lemma setitem_keys_present (V : Type) (d : OrderedDict.t V) key v :
  In key (OrderedDict.keys d) ->
  OrderedDict.keys (OrderedDict.setitem d key v) = OrderedDict.keys d.
Proof.
  induction d as [|[k v0] rest IH]; simpl; intros Hin.
  - contradiction.
  - destruct (String.eqb_spec k key) as [->|Hne]; simpl.
    + reflexivity.
    + f_equal. apply IH. destruct Hin as [Heq|Hin]; [contradiction|exact Hin].
Qed.

Lemma setitem_keys_absent (V : Type) (d : OrderedDict.t V) key v :
  ~ In key (OrderedDict.keys d) ->
  OrderedDict.keys (OrderedDict.setitem d key v) = (OrderedDict.keys d ++ [key])%list.
Proof.
  induction d as [|[k v0] rest IH]; simpl; intros Hnin.
  - reflexivity.
  - destruct (String.eqb_spec k key) as [->|Hne]; simpl.
    + exfalso. apply Hnin. now left.
    + f_equal. apply IH. intros Hin. apply Hnin. now right.
Qed.

Lemma setitem_middle (V : Type) (done rest : list (string * V)) key v0 v :
  ~ In key (map fst done) ->
  OrderedDict.setitem (done ++ (key, v0) :: rest)%list key v
  = (done ++ (key, v) :: rest)%list.
Proof.
  induction done as [|[k w] done IH]; simpl; intros Hnin.
  - now rewrite String.eqb_refl.
  - destruct (String.eqb_spec k key) as [->|Hne].
    + exfalso. apply Hnin. now left.
    + f_equal. apply IH. intros Hin. apply Hnin. now right.
Qed.

Lemma setitem_well_formed (V : Type) (d : OrderedDict.t V) key v :
  OrderedDict.well_formed d ->
  OrderedDict.well_formed (OrderedDict.setitem d key v).
Proof.
  unfold OrderedDict.well_formed. intros Hnd.
  destruct (in_dec string_dec key (OrderedDict.keys d)) as [Hin|Hnin].
  - now rewrite setitem_keys_present.
  - rewrite setitem_keys_absent by assumption.
    apply NoDup_app; auto.
    + constructor; [intros []|constructor].
    + intros k Hk [<-|[]]. contradiction.
Qed.

Lemma setitem_Forall (V : Type) (Q : string * V -> Prop)
    (d : OrderedDict.t V) key v :
  Forall Q d -> Q (key, v) -> Forall Q (OrderedDict.setitem d key v).
Proof.
  intros Hd Hq. induction Hd as [|[k v0] rest Hk Hrest IH]; simpl.
  - now repeat constructor.
  - destruct (String.eqb_spec k key) as [->|Hne]; constructor; eauto.
Qed.

Lemma remove_keys_incl (V : Type) (d : OrderedDict.t V) key k :
  In k (OrderedDict.keys (OrderedDict.remove d key)) -> In k (OrderedDict.keys d).
Proof.
  induction d as [|[k0 v0] rest IH]; simpl; [tauto|].
  destruct (String.eqb_spec k0 key); simpl; intuition.
Qed.

Lemma remove_well_formed (V : Type) (d : OrderedDict.t V) key :
  OrderedDict.well_formed d -> OrderedDict.well_formed (OrderedDict.remove d key).
Proof.
  unfold OrderedDict.well_formed.
  induction d as [|[k0 v0] rest IH]; simpl; intros Hnd; [assumption|].
  inversion Hnd as [|? ? Hnin Hnd']; subst.
  destruct (String.eqb_spec k0 key); simpl; [assumption|].
  constructor; [|now apply IH].
  intros Hin. apply Hnin. eapply remove_keys_incl; eassumption.
Qed.

Lemma remove_Forall (V : Type) (Q : string * V -> Prop)
    (d : OrderedDict.t V) key :
  Forall Q d -> Forall Q (OrderedDict.remove d key).
Proof.
  induction 1 as [|[k0 v0] rest Hk Hrest IH]; simpl; [constructor|].
  destruct (String.eqb_spec k0 key); [assumption|now constructor].
Qed.

Lemma map_values_keys (V W : Type) (f : V -> W) (d : OrderedDict.t V) :
  OrderedDict.keys (OrderedDict.map_values f d) = OrderedDict.keys d.
Proof.
  unfold OrderedDict.keys, OrderedDict.map_values.
  rewrite map_map. reflexivity.
Qed.

(* ------------------------------------------------------------------------- *)
(** ** [Condition.evaluate] *)
(* ------------------------------------------------------------------------- *)

Section ConditionEvaluate.
Context {O : ObjectModel} {L : PredicateLibrary}.

Lemma Condition_evaluate_eq (c : Condition.t) :
  Condition.evaluate c
  = match py_call (Condition._eval_function c)
            [Condition._get_value c (Condition._a c);
             Condition._get_value c (Condition._b c)] with
    | Return v => (Condition.set_is_valid (resolved c) v, Returned)
    | Raise e => (resolved c, Raised e)
    end.
Proof. reflexivity. Qed.

Lemma Condition_evaluate_a (c : Condition.t) :
  Condition._a (fst (Condition.evaluate c))
  = Condition._get_value c (Condition._a c).
Proof.
  rewrite Condition_evaluate_eq.
  destruct (py_call _ _); reflexivity.
Qed.

Lemma Condition_evaluate_b (c : Condition.t) :
  Condition._b (fst (Condition.evaluate c))
  = Condition._get_value c (Condition._b c).
Proof.
  rewrite Condition_evaluate_eq.
  destruct (py_call _ _); reflexivity.
Qed.

Lemma Condition_evaluate_frame (c : Condition.t) :
  Condition._evaluated_instance (fst (Condition.evaluate c))
  = Condition._evaluated_instance c
  /\ Condition._eval_function (fst (Condition.evaluate c))
     = Condition._eval_function c
  /\ Condition._evaluated_attribute (fst (Condition.evaluate c))
     = Condition._evaluated_attribute c
  /\ Condition.id (fst (Condition.evaluate c)) = Condition.id c.
Proof.
  rewrite Condition_evaluate_eq.
  destruct (py_call _ _); repeat split; reflexivity.
Qed.

(** [_get_value] reads [self] for its evaluated instance only. *)
Lemma get_value_instance (c c' : Condition.t) (a : value) :
  Condition._evaluated_instance c' = Condition._evaluated_instance c ->
  Condition._get_value c' a = Condition._get_value c a.
Proof.
  intros Heq. unfold Condition._get_value. now rewrite Heq.
Qed.

(** C2, as amended. With no predicate selected, [evaluate] ends in the
    [TypeError] that Python raises for calling [None]: the module has no
    error of its own for a condition that is not configured. By then the
    validity has been reset to "Not evaluated." and both operands have
    been resolved, and so they stay. *)
Theorem Condition_evaluate_unconfigured (c : Condition.t) :
  Condition._eval_function c = None ->
  Condition.evaluate c
  = (resolved c, Raised (TypeError "'NoneType' object is not callable"))
  /\ Condition._is_valid (fst (Condition.evaluate c)) = VStr "Not evaluated.".
Proof.
  intros Hnone. rewrite Condition_evaluate_eq, Hnone. split; reflexivity.
Qed.

(** C6. A stored operand that is a string naming no attribute of the
    evaluated instance resolves to the string itself; nothing is raised
    on the way, so [evaluate] stores the string back as the operand and
    ends as the call of the predicate ends. *)
Theorem Condition_get_value_fallback (c : Condition.t) (s : string) :
  getattr (Condition._evaluated_instance c) s = None ->
  Condition._get_value c (VStr s) = VStr s
  /\ (Condition._a c = VStr s ->
      Condition._a (fst (Condition.evaluate c)) = VStr s)
  /\ (Condition._b c = VStr s ->
      Condition._b (fst (Condition.evaluate c)) = VStr s)
  /\ (forall v,
        py_call (Condition._eval_function c)
          [Condition._get_value c (Condition._a c);
           Condition._get_value c (Condition._b c)] = Return v ->
        snd (Condition.evaluate c) = Returned).
Proof.
  intros Hmiss.
  assert (Hlit : Condition._get_value c (VStr s) = VStr s).
  { unfold Condition._get_value. now rewrite Hmiss. }
  split; [exact Hlit|]. split; [|split].
  - intros Ha. now rewrite Condition_evaluate_a, Ha.
  - intros Hb. now rewrite Condition_evaluate_b, Hb.
  - intros v Hcall. now rewrite Condition_evaluate_eq, Hcall.
Qed.

(** C7, as amended. When the resolved operands resolve to themselves (a
    resolved operand is not in its turn a string naming an attribute of
    the evaluated instance), a second [evaluate] right after the first
    leaves the same state and ends the same way; the validity state is
    the same both times. *)
Theorem Condition_evaluate_twice (c : Condition.t) :
  Condition._get_value c (Condition._get_value c (Condition._a c))
  = Condition._get_value c (Condition._a c) ->
  Condition._get_value c (Condition._get_value c (Condition._b c))
  = Condition._get_value c (Condition._b c) ->
  Condition.evaluate (fst (Condition.evaluate c)) = Condition.evaluate c
  /\ Condition._is_valid (fst (Condition.evaluate (fst (Condition.evaluate c))))
     = Condition._is_valid (fst (Condition.evaluate c)).
Proof.
  intros Ha Hb.
  assert (Heq : Condition.evaluate (fst (Condition.evaluate c))
                = Condition.evaluate c).
  { destruct (Condition_evaluate_frame c) as (Hinst & Hfun & _ & _).
    rewrite (Condition_evaluate_eq (fst (Condition.evaluate c))).
    rewrite Hfun, Condition_evaluate_a, Condition_evaluate_b.
    rewrite !(@get_value_instance _ _ _ Hinst), Ha, Hb.
    unfold resolved.
    rewrite Condition_evaluate_a, Condition_evaluate_b.
    rewrite !(@get_value_instance _ _ _ Hinst), Ha, Hb.
    rewrite (Condition_evaluate_eq c).
    destruct (py_call _ _); reflexivity. }
  split; [exact Heq|now rewrite Heq].
Qed.

(** C8, as amended. Whatever predicate is selected, of one operand or of
    two, [evaluate] calls it on two positional arguments: the resolved
    [_a] and the resolved [_b] ([None] unless a second operand was stored
    before). The answer of that call becomes the validity state, and an
    exception of that call leaves the validity at "Not evaluated.". *)
Theorem Condition_evaluate_calls_with_two (c : Condition.t)
    (f : utils.function) :
  Condition._eval_function c = Some f ->
  (forall v,
      call f [Condition._get_value c (Condition._a c);
              Condition._get_value c (Condition._b c)] = Return v ->
      Condition.evaluate c = (Condition.set_is_valid (resolved c) v, Returned)
      /\ Condition._is_valid (fst (Condition.evaluate c)) = v)
  /\ (forall e,
        call f [Condition._get_value c (Condition._a c);
                Condition._get_value c (Condition._b c)] = Raise e ->
        Condition.evaluate c = (resolved c, Raised e)
        /\ Condition._is_valid (fst (Condition.evaluate c))
           = VStr "Not evaluated.").
Proof.
  intros Hf. rewrite Condition_evaluate_eq, Hf. simpl.
  split; intros r Hcall; rewrite Hcall; split; reflexivity.
Qed.

(** C9. [evaluate] stores the resolved operands in place of the stored
    ones. After an [evaluate] that replaced the selector [s] by the value
    [v] of the instance's attribute, the selector is gone: an [evaluate]
    after binding another target resolves [v], not [s], against the new
    target. *)
Theorem Condition_evaluate_overwrites_operands (c : Condition.t) :
  Condition._a (fst (Condition.evaluate c))
  = Condition._get_value c (Condition._a c)
  /\ Condition._b (fst (Condition.evaluate c))
     = Condition._get_value c (Condition._b c)
  /\ (forall s v,
        Condition._a c = VStr s ->
        getattr (Condition._evaluated_instance c) s = Some v ->
        Condition._a (fst (Condition.evaluate c)) = v
        /\ forall target,
            Condition._a
              (fst (Condition.evaluate
                      (Condition.on target (fst (Condition.evaluate c)))))
            = Condition._get_value (Condition.on target c) v)
  /\ (forall s v,
        Condition._b c = VStr s ->
        getattr (Condition._evaluated_instance c) s = Some v ->
        Condition._b (fst (Condition.evaluate c)) = v
        /\ forall target,
            Condition._b
              (fst (Condition.evaluate
                      (Condition.on target (fst (Condition.evaluate c)))))
            = Condition._get_value (Condition.on target c) v).
Proof.
  split; [apply Condition_evaluate_a|].
  split; [apply Condition_evaluate_b|].
  split; intros s v Hsel Hattr.
  - assert (Hv : Condition._a (fst (Condition.evaluate c)) = v).
    { rewrite Condition_evaluate_a, Hsel. simpl. now rewrite Hattr. }
    split; [exact Hv|]. intros target.
    rewrite Condition_evaluate_a. simpl Condition._a. rewrite Hv.
    apply get_value_instance. reflexivity.
  - assert (Hv : Condition._b (fst (Condition.evaluate c)) = v).
    { rewrite Condition_evaluate_b, Hsel. simpl. now rewrite Hattr. }
    split; [exact Hv|]. intros target.
    rewrite Condition_evaluate_b. simpl Condition._b. rewrite Hv.
    apply get_value_instance. reflexivity.
Qed.
End ConditionEvaluate.

(* ------------------------------------------------------------------------- *)
(** ** The composite: [on], [attribute], [evaluate] *)
(* ------------------------------------------------------------------------- *)

Lemma flat_map_map_values (A : Type) (f : node -> node) (g : node -> list A)
    (d : OrderedDict.t node) :
  flat_map (fun kc => g (snd kc)) (OrderedDict.map_values f d)
  = flat_map (fun kc => g (f (snd kc))) d.
Proof.
  induction d as [|kc rest IH]; simpl; [reflexivity|now rewrite IH].
Qed.

Lemma Forall2_flat_map (A B : Type) (R : B -> B -> Prop)
    (g h : A -> list B) (l : list A) :
  Forall (fun x => Forall2 R (g x) (h x)) l ->
  Forall2 R (flat_map g l) (flat_map h l).
Proof.
  induction 1 as [|x rest Hx Hrest IH]; simpl.
  - constructor.
  - now apply Forall2_app.
Qed.

Lemma node_on_id (x : value) (n : node) : node_id (node_on x n) = node_id n.
Proof. destruct n; reflexivity. Qed.

Lemma node_on_subtree (x : value) (n : node) :
  Forall (fun d => node_evaluated_instance d = x) (subtree (node_on x n))
  /\ map node_id (subtree (node_on x n)) = map node_id (subtree n).
Proof.
  induction n as [c|s IH] using node_induction.
  - split; [repeat constructor|reflexivity].
  - split.
    + simpl. constructor; [reflexivity|].
      rewrite flat_map_map_values. apply Forall_flat_map.
      eapply Forall_impl; [|exact IH]. intros kc [Hall _]. exact Hall.
    + simpl. f_equal.
      rewrite flat_map_map_values, !flat_map_concat_map, !concat_map, !map_map.
      f_equal. apply map_ext_Forall.
      eapply Forall_impl; [|exact IH]. intros kc [_ Hids]. exact Hids.
Qed.

(** C4. After [on(x)] on a set, the evaluated instance of the set and of
    every node below it, at any depth, is [x]; the nodes below it are the
    nodes that were there, in the same order. *)
Theorem ConditionSet_on_reaches_every_descendant
    (x : value) (s : ConditionSet.t node) :
  Forall (fun d => node_evaluated_instance d = x)
    (descendants (Composite (ConditionSet.on node_on x s)))
  /\ ConditionSet._evaluated_instance (ConditionSet.on node_on x s) = x
  /\ map node_id (descendants (Composite (ConditionSet.on node_on x s)))
     = map node_id (descendants (Composite s)).
Proof.
  destruct (node_on_subtree x (Composite s)) as [Hall Hids].
  simpl in Hall, Hids. inversion Hall as [|? ? Hroot Hbelow]; subst.
  apply (f_equal (@tl string)) in Hids. simpl in Hids.
  repeat split; assumption.
Qed.

Section Composite.
Context {O : ObjectModel} {L : PredicateLibrary}.

(** *** [attribute] *)

Lemma attribute_children_eq (name : string) (items : list (string * node)) :
  fst (ConditionSet.attribute_children node_attribute name items)
  = OrderedDict.map_values (fun c => fst (node_attribute name c)) items.
Proof.
  induction items as [|[k c] rest IH]; simpl; [reflexivity|].
  destruct (node_attribute name c) as [c' out].
  destruct (ConditionSet.attribute_children node_attribute name rest)
    as [rest' outs].
  simpl in *. now rewrite IH.
Qed.

Lemma ConditionSet_attribute_eq (name : string) (s : ConditionSet.t node) :
  fst (ConditionSet.attribute node_attribute name s)
  = ConditionSet.mk
      (fst (BaseCondition.attribute name (ConditionSet.base s)))
      (ConditionSet._logical s)
      (OrderedDict.map_values (fun c => fst (node_attribute name c))
         (ConditionSet._conditions s)).
Proof.
  unfold ConditionSet.attribute.
  destruct (BaseCondition.attribute name (ConditionSet.base s)) as [b out].
  simpl.
  pose proof (attribute_children_eq name (ConditionSet._conditions s)) as Hc.
  unfold OrderedDict.items.
  destruct (ConditionSet.attribute_children node_attribute name
              (ConditionSet._conditions s)) as [cs outs].
  simpl in *. now rewrite Hc.
Qed.

Lemma BaseCondition_attribute_rebound (name : string) (b : BaseCondition.t) :
  BaseCondition._id (fst (BaseCondition.attribute name b)) = BaseCondition._id b
  /\ BaseCondition._evaluated_instance (fst (BaseCondition.attribute name b))
     = BaseCondition._evaluated_instance b
  /\ BaseCondition._evaluated_attribute (fst (BaseCondition.attribute name b))
     = if hasattr (BaseCondition._evaluated_instance b) name
       then Some name
       else BaseCondition._evaluated_attribute b.
Proof.
  unfold BaseCondition.attribute.
  destruct (hasattr (BaseCondition._evaluated_instance b) name);
    repeat split; reflexivity.
Qed.

Lemma node_attribute_root (name : string) (n : node) :
  rebound name n (fst (node_attribute name n)).
Proof.
  destruct n as [c|s].
  - simpl. unfold Condition.attribute.
    pose proof (BaseCondition_attribute_rebound name (Condition.base c)) as H.
    destruct (BaseCondition.attribute name (Condition.base c)) as [b out].
    exact H.
  - pose proof (ConditionSet_attribute_eq name s) as Heq.
    pose proof (BaseCondition_attribute_rebound name (ConditionSet.base s)) as H.
    simpl. destruct (ConditionSet.attribute node_attribute name s) as [s' out].
    simpl in Heq. subst s'. exact H.
Qed.

Lemma node_attribute_subtree (name : string) (n : node) :
  Forall2 (rebound name) (subtree n) (subtree (fst (node_attribute name n))).
Proof.
  induction n as [c|s IH] using node_induction.
  - pose proof (node_attribute_root name (Atomic c)) as Hroot.
    simpl in *. destruct (Condition.attribute name c) as [c' out].
    simpl in *. constructor; [exact Hroot|constructor].
  - pose proof (node_attribute_root name (Composite s)) as Hroot.
    pose proof (ConditionSet_attribute_eq name s) as Heq.
    simpl in *. destruct (ConditionSet.attribute node_attribute name s)
      as [s' out].
    simpl in *. constructor; [exact Hroot|].
    subst s'. simpl. rewrite flat_map_map_values.
    apply Forall2_flat_map. exact IH.
Qed.

End Composite.

Section CompositeEvaluate.
Context {O : ObjectModel} {L : PredicateLibrary}.

#[local] Abbreviation evaluate_children :=
  (ConditionSet.evaluate_children node_id node_evaluate).
#[local] Abbreviation evaluate_set :=
  (ConditionSet.evaluate node_id node_is_valid node_evaluate).
#[local] Abbreviation own_key := (fun kc : string * node => fst kc = node_id (snd kc)).

Lemma evaluate_children_frame (items : list (string * node))
    (self : ConditionSet.t node) :
  ConditionSet.base (fst (evaluate_children items self))
  = ConditionSet.base self
  /\ ConditionSet._logical (fst (evaluate_children items self))
     = ConditionSet._logical self.
Proof.
  revert self. induction items as [|[k c] rest IH]; intros self; simpl.
  - split; reflexivity.
  - destruct (node_evaluate c) as [c' [|e]].
    + destruct (IH (ConditionSet.add_condition node_id self c')) as [Hb Hl].
      rewrite Hb, Hl. split; reflexivity.
    + split; reflexivity.
Qed.

Lemma ConditionSet_evaluate_frame (s : ConditionSet.t node) :
  ConditionSet.id (fst (evaluate_set s)) = ConditionSet.id s
  /\ ConditionSet._logical (fst (evaluate_set s)) = ConditionSet._logical s
  /\ ConditionSet._conditions (fst (evaluate_set s))
     = ConditionSet._conditions
         (fst (evaluate_children (ConditionSet._conditions s) s)).
Proof.
  unfold ConditionSet.evaluate, OrderedDict.items.
  destruct (evaluate_children_frame (ConditionSet._conditions s) s)
    as [Hb Hl].
  destruct (evaluate_children (ConditionSet._conditions s) s) as [s1 [|e]];
    simpl in *.
  - unfold ConditionSet.id.
    destruct (ConditionSet._logical s1 =? "all");
      [|destruct (ConditionSet._logical s1 =? "any")];
      simpl; rewrite Hb, Hl; repeat split; reflexivity.
  - unfold ConditionSet.id. rewrite Hb, Hl. repeat split; reflexivity.
Qed.

(** Evaluation changes no id. *)
Lemma node_evaluate_id (n : node) :
  node_id (fst (node_evaluate n)) = node_id n.
Proof.
  destruct n as [c|s]; simpl.
  - pose proof (Condition_evaluate_frame c) as (_ & _ & _ & Hid).
    destruct (Condition.evaluate c) as [c' r]. exact Hid.
  - pose proof (ConditionSet_evaluate_frame s) as (Hid & _ & _).
    destruct (evaluate_set s) as [s' r]. exact Hid.
Qed.

(** The loop of line 233 stores every child in the slot it came from. *)
Lemma evaluate_children_keys (items : list (string * node))
    (self : ConditionSet.t node) :
  Forall own_key items ->
  incl (OrderedDict.keys items) (OrderedDict.keys (ConditionSet._conditions self)) ->
  OrderedDict.keys (ConditionSet._conditions (fst (evaluate_children items self)))
  = OrderedDict.keys (ConditionSet._conditions self).
Proof.
  revert self. induction items as [|[k c] rest IH]; intros self Hown Hincl.
  - reflexivity.
  - inversion Hown as [|? ? Hk Hrest]; subst. simpl in Hk.
    assert (Hin : In k (OrderedDict.keys (ConditionSet._conditions self)))
      by (apply Hincl; now left).
    assert (Hincl' : incl (OrderedDict.keys rest)
                       (OrderedDict.keys (ConditionSet._conditions self)))
      by (intros x Hx; apply Hincl; now right).
    simpl. pose proof (node_evaluate_id c) as Hid.
    destruct (node_evaluate c) as [c' [|e]]; simpl in Hid.
    + assert (Hstored :
        OrderedDict.keys
          (ConditionSet._conditions (ConditionSet.add_condition node_id self c'))
        = OrderedDict.keys (ConditionSet._conditions self)).
      { simpl. rewrite Hid, <- Hk. now apply setitem_keys_present. }
      rewrite IH; [exact Hstored|exact Hrest|now rewrite Hstored].
    + simpl. now apply setitem_keys_present.
Qed.

Lemma evaluate_children_own_key (items : list (string * node))
    (self : ConditionSet.t node) :
  Forall own_key items ->
  Forall own_key (ConditionSet._conditions self) ->
  Forall own_key (ConditionSet._conditions (fst (evaluate_children items self))).
Proof.
  revert self. induction items as [|[k c] rest IH]; intros self Hown Hself.
  - exact Hself.
  - inversion Hown as [|? ? Hk Hrest]; subst. simpl in Hk.
    simpl. pose proof (node_evaluate_id c) as Hid.
    destruct (node_evaluate c) as [c' [|e]]; simpl in Hid.
    + apply IH; [exact Hrest|]. simpl.
      apply setitem_Forall; [exact Hself|reflexivity].
    + simpl. apply setitem_Forall; [exact Hself|]. simpl. congruence.
Qed.

(** When the loop runs to its end, every child has been evaluated, none
    has raised, and each slot holds its child as evaluated. *)
Lemma evaluate_children_values (items done : list (string * node))
    (self self' : ConditionSet.t node) :
  ConditionSet._conditions self = (done ++ items)%list ->
  NoDup (map fst (done ++ items)) ->
  Forall own_key items ->
  evaluate_children items self = (self', Returned) ->
  ConditionSet._conditions self'
  = (done ++ OrderedDict.map_values (fun c => fst (node_evaluate c)) items)%list
  /\ Forall (fun kc => snd (node_evaluate (snd kc)) = Returned) items.
Proof.
  revert done self.
  induction items as [|[k c] rest IH]; intros done self Hself Hnd Hown Hrun.
  - simpl in Hrun. injection Hrun as <-. split; [exact Hself|constructor].
  - inversion Hown as [|? ? Hk Hrest]; subst. simpl in Hk.
    simpl in Hrun. pose proof (node_evaluate_id c) as Hid.
    destruct (node_evaluate c) as [c' [|e]] eqn:Hc; simpl in Hid;
      [|discriminate Hrun].
    assert (Hfresh : ~ In k (map fst done)).
    { rewrite map_app in Hnd. simpl in Hnd.
      apply NoDup_remove_2 in Hnd. intros Hin. apply Hnd.
      apply in_or_app. now left. }
    destruct (IH (done ++ [(k, c')])%list
                (ConditionSet.add_condition node_id self c')) as [Hconds Hall].
    + simpl. rewrite Hself, Hid, <- Hk.
      rewrite setitem_middle by exact Hfresh.
      now rewrite <- app_assoc.
    + rewrite <- app_assoc. simpl.
      rewrite map_app in *. exact Hnd.
    + exact Hrest.
    + exact Hrun.
    + split.
      * rewrite Hconds, <- app_assoc. simpl. now rewrite Hc.
      * constructor; [simpl; now rewrite Hc|exact Hall].
Qed.

Lemma own_key_ids (d : OrderedDict.t node) :
  Forall own_key d -> map node_id (OrderedDict.values d) = OrderedDict.keys d.
Proof.
  induction 1 as [|kc rest Hk Hrest IH]; simpl; [reflexivity|].
  now rewrite IH, Hk.
Qed.

(** C1. When [evaluate] on a set returns, every child has been evaluated
    (none raised) and sits, as evaluated, in its slot; the validity
    state of the set is the combinator over the validity states of the
    children as evaluated: under "all" the conjunction, under "any" the
    disjunction, under "none" the negated disjunction. With no children
    this is true, false and true. *)
Theorem ConditionSet_evaluate_combines (s s' : ConditionSet.t node) :
  keyed_by_id s ->
  ConditionSet.evaluate node_id node_is_valid node_evaluate s = (s', Returned) ->
  ConditionSet._conditions s'
  = OrderedDict.map_values (fun c => fst (node_evaluate c))
      (ConditionSet._conditions s)
  /\ Forall (fun c => snd (node_evaluate c) = Returned) (children (Composite s))
  /\ (ConditionSet._logical s = "all" ->
      ConditionSet._is_valid s'
      = VBool (forallb truthy
                 (map (fun c => node_is_valid (fst (node_evaluate c)))
                    (children (Composite s)))))
  /\ (ConditionSet._logical s = "any" ->
      ConditionSet._is_valid s'
      = VBool (existsb truthy
                 (map (fun c => node_is_valid (fst (node_evaluate c)))
                    (children (Composite s)))))
  /\ (ConditionSet._logical s = "none" ->
      ConditionSet._is_valid s'
      = VBool (negb (existsb truthy
                       (map (fun c => node_is_valid (fst (node_evaluate c)))
                          (children (Composite s))))))
  /\ (children (Composite s) = [] ->
      ConditionSet._is_valid s'
      = VBool (if ConditionSet._logical s =? "any" then false else true)).
Proof.
  intros [Hnd Hown] Hrun.
  unfold ConditionSet.evaluate, OrderedDict.items in Hrun.
  destruct (evaluate_children_frame (ConditionSet._conditions s) s)
    as [_ Hlogical].
  destruct (evaluate_children (ConditionSet._conditions s) s)
    as [s1 [|e]] eqn:Hloop; [|discriminate Hrun].
  simpl in Hlogical.
  destruct (@evaluate_children_values (ConditionSet._conditions s) [] s s1
              eq_refl Hnd Hown Hloop) as [Hconds Hall].
  simpl in Hconds.
  set (states := map (fun c => node_is_valid (fst (node_evaluate c)))
                   (children (Composite s))).
  assert (Hstates :
    map (fun kc : string * node => node_is_valid (snd kc))
      (ConditionSet._conditions s1) = states).
  { rewrite Hconds. unfold states, OrderedDict.map_values. simpl.
    unfold OrderedDict.values. now rewrite !map_map. }
  assert (Hvalid :
    ConditionSet._conditions s' = ConditionSet._conditions s1
    /\ ConditionSet._is_valid s'
       = VBool (if ConditionSet._logical s =? "all" then all states
                else if ConditionSet._logical s =? "any" then any states
                else negb (any states))).
  { rewrite <- Hlogical, <- Hstates.
    destruct (ConditionSet._logical s1 =? "all");
      [|destruct (ConditionSet._logical s1 =? "any")];
      injection Hrun as <-; split; reflexivity. }
  destruct Hvalid as [Hsame Hvalid].
  split; [now rewrite Hsame|].
  split.
  { simpl. unfold OrderedDict.values. apply Forall_map. exact Hall. }
  split; [|split; [|split]].
  - intros Heq. rewrite Hvalid, Heq. reflexivity.
  - intros Heq. rewrite Hvalid, Heq. reflexivity.
  - intros Heq. rewrite Hvalid, Heq. reflexivity.
  - intros Hempty. rewrite Hvalid. unfold states. rewrite Hempty. simpl.
    destruct (ConditionSet._logical s =? "all") eqn:Hall';
      [|destruct (ConditionSet._logical s =? "any"); reflexivity].
    apply String.eqb_eq in Hall'. now rewrite Hall'.
Qed.

(** C10. [evaluate] on a set leaves the keys of the child mapping, and so
    the ids of the children, as they were and in the order they were,
    whether it returns or a child raises; the mapping is still keyed by
    the ids of its children. *)
Theorem ConditionSet_evaluate_keeps_children (s : ConditionSet.t node) :
  keyed_by_id s ->
  OrderedDict.keys
    (ConditionSet._conditions
       (fst (ConditionSet.evaluate node_id node_is_valid node_evaluate s)))
  = OrderedDict.keys (ConditionSet._conditions s)
  /\ map node_id
       (children
          (Composite
             (fst (ConditionSet.evaluate node_id node_is_valid node_evaluate s))))
     = map node_id (children (Composite s))
  /\ keyed_by_id
       (fst (ConditionSet.evaluate node_id node_is_valid node_evaluate s)).
Proof.
  intros [Hnd Hown].
  destruct (ConditionSet_evaluate_frame s) as (_ & _ & Hconds).
  assert (Hkeys :
    OrderedDict.keys (ConditionSet._conditions (fst (evaluate_set s)))
    = OrderedDict.keys (ConditionSet._conditions s)).
  { rewrite Hconds. apply evaluate_children_keys; [exact Hown|].
    apply incl_refl. }
  assert (Hown' : Forall own_key (ConditionSet._conditions (fst (evaluate_set s)))).
  { rewrite Hconds. now apply evaluate_children_own_key. }
  split; [exact Hkeys|]. split.
  - simpl. rewrite !own_key_ids by assumption. exact Hkeys.
  - split; [|exact Hown'].
    unfold OrderedDict.well_formed. rewrite Hkeys. exact Hnd.
Qed.
End CompositeEvaluate.

(* ------------------------------------------------------------------------- *)
(** ** The child mapping stays keyed by id *)
(* ------------------------------------------------------------------------- *)

Lemma keyed_by_id_init (uuid4 now user : string) :
  keyed_by_id (ConditionSet.init uuid4 now user).
Proof. split; constructor. Qed.

Lemma keyed_by_id_add_condition (s : ConditionSet.t node) (condition : node) :
  keyed_by_id s -> keyed_by_id (ConditionSet.add_condition node_id s condition).
Proof.
  intros [Hnd Hown]. split; simpl.
  - now apply setitem_well_formed.
  - apply setitem_Forall; [exact Hown|reflexivity].
Qed.

Lemma keyed_by_id_remove_condition (s s' : ConditionSet.t node) (condition : node) :
  keyed_by_id s ->
  ConditionSet.remove_condition node_id s condition = Return s' ->
  keyed_by_id s'.
Proof.
  intros [Hnd Hown]. unfold ConditionSet.remove_condition, OrderedDict.delitem.
  destruct (OrderedDict.contains _ _); [|discriminate].
  intros Heq. injection Heq as <-. split; simpl.
  - now apply remove_well_formed.
  - now apply remove_Forall.
Qed.

Lemma keyed_by_id_map_values (f : node -> node) (s : ConditionSet.t node)
    (b : BaseCondition.t) :
  (forall n, node_id (f n) = node_id n) ->
  keyed_by_id s ->
  keyed_by_id
    (ConditionSet.mk b (ConditionSet._logical s)
       (OrderedDict.map_values f (ConditionSet._conditions s))).
Proof.
  intros Hid [Hnd Hown]. split; simpl.
  - unfold OrderedDict.well_formed. now rewrite map_values_keys.
  - unfold OrderedDict.map_values. apply Forall_map.
    eapply Forall_impl; [|exact Hown]. intros kc Hk. simpl. now rewrite Hid.
Qed.

Lemma keyed_by_id_on (x : value) (s : ConditionSet.t node) :
  keyed_by_id s -> keyed_by_id (ConditionSet.on node_on x s).
Proof.
  intros Hs. unfold ConditionSet.on. simpl.
  apply (keyed_by_id_map_values _ _ (node_on_id x) Hs).
Qed.

Lemma keyed_by_id_attribute (O : ObjectModel) (name : string)
    (s : ConditionSet.t node) :
  keyed_by_id s ->
  keyed_by_id (fst (ConditionSet.attribute node_attribute name s)).
Proof.
  intros Hs. rewrite ConditionSet_attribute_eq.
  apply keyed_by_id_map_values; [|exact Hs].
  intros n. apply (node_attribute_root name n).
Qed.

(* ------------------------------------------------------------------------- *)
(** ** Scenarios *)
(* ------------------------------------------------------------------------- *)

Section Scenarios.
Import Scenario.
#[local] Existing Instance data_attributes.

Ltac distinct_keys :=
  repeat constructor; simpl; intuition discriminate.

Lemma mixed_keyed_by_id : keyed_by_id mixed.
Proof. split; [distinct_keys|repeat constructor]. Defined.

(** *** C1 *)

(** The set [mixed], of a condition that holds and one that does not,
    evaluates to false under "all". *)
Lemma ConditionSet_evaluate_combines_witness :
  keyed_by_id mixed
  /\ exists s',
      @ConditionSet.evaluate node node_id node_is_valid
        (@node_evaluate data_attributes utils_model_library) mixed
      = (s', Returned)
      /\ ConditionSet._logical mixed = "all"
      /\ map node_is_valid (children (Composite s')) = [VBool true; VBool false]
      /\ ConditionSet._is_valid s' = VBool false.
Proof.
  split; [exact mixed_keyed_by_id|].
  eexists. split; [reflexivity|].
  split; [reflexivity|]. split; [reflexivity|].
  destruct (@ConditionSet_evaluate_combines data_attributes utils_model_library
              mixed _ mixed_keyed_by_id eq_refl) as (_ & _ & Hall & _).
  rewrite (Hall eq_refl). reflexivity.
Defined.

(** *** C2 *)

(** C2 fails on a fresh condition: [evaluate] ends in the [TypeError] of
    calling [None], which is Python's generic fault for a missing
    callable and no error of the module's own. *)
Lemma Condition_evaluate_unconfigured_counterexample :
  snd (@Condition.evaluate data_attributes utils_model_library
         (new_Condition "c1"))
  = Raised (TypeError "'NoneType' object is not callable").
Proof. reflexivity. Qed.

Lemma Condition_evaluate_unconfigured_witness :
  Condition._eval_function (new_Condition "c1") = None
  /\ @Condition.evaluate data_attributes utils_model_library (new_Condition "c1")
     = (new_Condition "c1",
        Raised (TypeError "'NoneType' object is not callable")).
Proof.
  split; [reflexivity|].
  destruct (@Condition_evaluate_unconfigured data_attributes utils_model_library
              (new_Condition "c1") eq_refl) as [Heq _].
  rewrite Heq. reflexivity.
Defined.

(** *** C3 *)

(** C3 fails as stated: [on(5)] binds the evaluated instance and leaves
    the operand [_a] at [None], so [is_greater] is called on [None] and
    3, raises, and the validity stays at "Not evaluated.". *)
Lemma Condition_on_5_is_greater_3_counterexample :
  @Condition.evaluate data_attributes utils_model_library
    (Condition.is_greater (VInt 3) (Condition.on (VInt 5) (new_Condition "c1")))
  = (Condition.is_greater (VInt 3) (Condition.on (VInt 5) (new_Condition "c1")),
     Raised (TypeError
               "'>' not supported between instances of 'NoneType' and 'int'"))
  /\ Condition._is_valid
       (fst (@Condition.evaluate data_attributes utils_model_library
               (Condition.is_greater (VInt 3)
                  (Condition.on (VInt 5) (new_Condition "c1")))))
     <> VBool true.
Proof. split; [reflexivity|discriminate]. Qed.

(** C3, as amended. A fresh condition on which [when(5)], [is_greater(3)]
    and [evaluate] are called ends with the validity state [True]. On a
    fresh condition on which [on(5)] is called in the place of [when(5)],
    [evaluate] calls [is_greater] on [None] and 3, whatever the library:
    the validity state is the answer of that call, and "Not evaluated."
    when the call raises. *)
Theorem Condition_when_5_is_greater_3 (O : ObjectModel)
    (uuid4 now user : string) :
  @Condition.evaluate O utils_model_library
    (Condition.is_greater (VInt 3)
       (Condition.when (VInt 5) (Condition.init uuid4 now user)))
  = (Condition.set_is_valid
       (Condition.is_greater (VInt 3)
          (Condition.when (VInt 5) (Condition.init uuid4 now user)))
       (VBool true),
     Returned)
  /\ forall L : PredicateLibrary,
      Condition._is_valid
        (fst (@Condition.evaluate O L
                (Condition.is_greater (VInt 3)
                   (Condition.on (VInt 5) (Condition.init uuid4 now user)))))
      = match call utils.is_greater [VNone; VInt 3] with
        | Return v => v
        | Raise _ => VStr "Not evaluated."
        end.
Proof.
  split; [reflexivity|].
  intros L. rewrite Condition_evaluate_eq. simpl.
  destruct (call utils.is_greater [VNone; VInt 3]); reflexivity.
Qed.

(** *** C5 *)

(** C5 fails on a set of one condition, both bound to [point] and to its
    attribute [x]: [point] has no attribute [z], so [attribute("z")] on
    the set is refused by the set and by the condition, which keeps
    [x]; each prints its line. *)
Lemma ConditionSet_attribute_counterexample :
  map node_evaluated_attribute (descendants (Composite bound_to_x)) = [Some "x"]
  /\ map node_evaluated_attribute
       (descendants
          (Composite
             (fst (ConditionSet.attribute node_attribute "z" bound_to_x))))
     = [Some "x"]
  /\ snd (ConditionSet.attribute node_attribute "z" bound_to_x)
     = ["z is not a valid attribute for the Point class.";
        "z is not a valid attribute for the Point class."]
  /\ ~ Forall (fun d => node_evaluated_attribute d = Some "z")
         (descendants
            (Composite
               (fst (ConditionSet.attribute node_attribute "z" bound_to_x)))).
Proof.
  repeat split; try reflexivity.
  intros Hall. inversion Hall as [|? ? Hhead _]. discriminate Hhead.
Qed.

(** *** C6 *)

(** [point] has no attribute [z]: the operand "z" stays "z". *)
Lemma Condition_get_value_fallback_witness :
  getattr point "z" = None
  /\ Condition._a
       (fst (@Condition.evaluate data_attributes utils_model_library
               (Condition.is_string
                  (Condition.when (VStr "z")
                     (Condition.on point (new_Condition "c1"))))))
     = VStr "z".
Proof.
  split; [reflexivity|].
  destruct (@Condition_get_value_fallback data_attributes utils_model_library
              (Condition.is_string
                 (Condition.when (VStr "z")
                    (Condition.on point (new_Condition "c1"))))
              "z" eq_refl) as (_ & Ha & _).
  exact (Ha eq_refl).
Defined.

(** *** C7 *)

(** C7 fails on [selector], whose operand "x" names an attribute of
    [chained] whose value, "y", names another, of value 7: the first
    [evaluate] compares "y" with 7 and stores "y", the second compares 7
    with 7. *)
Lemma Condition_evaluate_twice_counterexample :
  Condition._is_valid
    (fst (@Condition.evaluate data_attributes utils_model_library selector))
  = VBool false
  /\ Condition._is_valid
       (fst (@Condition.evaluate data_attributes utils_model_library
               (fst (@Condition.evaluate data_attributes utils_model_library
                       selector))))
     = VBool true.
Proof. split; reflexivity. Qed.

Lemma Condition_evaluate_twice_witness :
  Condition._get_value (greater "c1" 5 3) (VInt 5) = VInt 5
  /\ Condition._get_value (greater "c1" 5 3) (VInt 3) = VInt 3
  /\ Condition._is_valid
       (fst (@Condition.evaluate data_attributes utils_model_library
               (fst (@Condition.evaluate data_attributes utils_model_library
                       (greater "c1" 5 3)))))
     = VBool true.
Proof.
  split; [reflexivity|]. split; [reflexivity|].
  destruct (@Condition_evaluate_twice data_attributes utils_model_library
              (greater "c1" 5 3) eq_refl eq_refl) as [_ Hsame].
  rewrite Hsame. reflexivity.
Defined.

(** *** C8 *)

(** C8 fails on a fresh condition with [is_none], a predicate of one
    operand, selected: the probe, which answers with the number of
    arguments it is called on, answers 2, where a call on the resolved [_a]
    alone answers 1. *)
Lemma Condition_evaluate_unary_counterexample :
  In utils.is_none SYNTACTIC_EVAL_FUNCTIONS
  /\ Condition._is_valid
    (fst (@Condition.evaluate data_attributes argument_count_probe
            (Condition.is_none (new_Condition "c1"))))
  = VInt 2
  /\ @call argument_count_probe utils.is_none
       [Condition._get_value (Condition.is_none (new_Condition "c1"))
          (Condition._a (Condition.is_none (new_Condition "c1")))]
     = Return (VInt 1).
Proof. split; [simpl; tauto|split; reflexivity]. Qed.

Lemma Condition_evaluate_calls_with_two_witness :
  Condition._eval_function (Condition.is_none (new_Condition "c1"))
  = Some utils.is_none
  /\ @call utils_model_library utils.is_none [VNone; VNone] = Return (VBool true)
  /\ Condition._is_valid
       (fst (@Condition.evaluate data_attributes utils_model_library
               (Condition.is_none (new_Condition "c1"))))
     = VBool true.
Proof.
  split; [reflexivity|]. split; [reflexivity|].
  destruct (@Condition_evaluate_calls_with_two data_attributes
              utils_model_library (Condition.is_none (new_Condition "c1"))
              utils.is_none eq_refl) as [Hreturn _].
  destruct (Hreturn (VBool true) eq_refl) as [_ Hvalid]. exact Hvalid.
Defined.

(** *** C9 *)

(** After a first [evaluate], [selector] holds "y" in the place of "x";
    bound to [numbers] and evaluated again it reads the attribute [y],
    200, and not [x], 100. *)
Lemma Condition_evaluate_overwrites_operands_witness :
  Condition._a selector = VStr "x"
  /\ getattr (Condition._evaluated_instance selector) "x" = Some (VStr "y")
  /\ Condition._a
       (fst (@Condition.evaluate data_attributes utils_model_library selector))
     = VStr "y"
  /\ Condition._a
       (fst (@Condition.evaluate data_attributes utils_model_library
               (Condition.on numbers
                  (fst (@Condition.evaluate data_attributes utils_model_library
                          selector)))))
     = VInt 200
  /\ Condition._get_value (Condition.on numbers selector) (VStr "x") = VInt 100.
Proof.
  destruct (@Condition_evaluate_overwrites_operands data_attributes
              utils_model_library selector) as (_ & _ & Ha & _).
  destruct (Ha "x" (VStr "y") eq_refl eq_refl) as [Hfirst Hlater].
  split; [reflexivity|]. split; [reflexivity|]. split; [exact Hfirst|].
  split; [|reflexivity].
  rewrite (Hlater numbers). reflexivity.
Defined.

(** *** C10 *)

Lemma ConditionSet_evaluate_keeps_children_witness :
  keyed_by_id mixed
  /\ OrderedDict.keys
       (ConditionSet._conditions
          (fst (@ConditionSet.evaluate node node_id node_is_valid
                  (@node_evaluate data_attributes utils_model_library) mixed)))
     = ["c1"; "c2"].
Proof.
  split; [exact mixed_keyed_by_id|].
  destruct (@ConditionSet_evaluate_keeps_children data_attributes
              utils_model_library mixed mixed_keyed_by_id) as [Hkeys _].
  rewrite Hkeys. reflexivity.
Defined.
End Scenarios.

(* ------------------------------------------------------------------------- *)
(** ** The child mapping: [add_condition], [get_condition],
       [remove_condition], [reset] *)
(* ------------------------------------------------------------------------- *)

Lemma getitem_setitem_same (V : Type) (d : OrderedDict.t V) key v :
  OrderedDict.getitem (OrderedDict.setitem d key v) key = Return v.
Proof.
  induction d as [|[k v0] rest IH]; simpl.
  - now rewrite String.eqb_refl.
  - destruct (String.eqb_spec k key) as [->|Hne]; simpl.
    + now rewrite String.eqb_refl.
    + apply String.eqb_neq in Hne. now rewrite Hne.
Qed.

Lemma getitem_setitem_other (V : Type) (d : OrderedDict.t V) key key' v :
  key <> key' ->
  OrderedDict.getitem (OrderedDict.setitem d key v) key'
  = OrderedDict.getitem d key'.
Proof.
  intros Hne. induction d as [|[k v0] rest IH]; simpl.
  - apply String.eqb_neq in Hne. now rewrite Hne.
  - destruct (String.eqb_spec k key) as [->|Hk]; simpl.
    + apply String.eqb_neq in Hne. now rewrite Hne.
    + destruct (k =? key'); [reflexivity|exact IH].
Qed.

Lemma getitem_absent (V : Type) (d : OrderedDict.t V) key :
  ~ In key (OrderedDict.keys d) ->
  OrderedDict.getitem d key = Raise (KeyError key).
Proof.
  induction d as [|[k v0] rest IH]; simpl; intros Hnin; [reflexivity|].
  destruct (String.eqb_spec k key) as [->|Hk].
  - exfalso. apply Hnin. now left.
  - apply IH. intros Hin. apply Hnin. now right.
Qed.

Lemma contains_In (V : Type) (d : OrderedDict.t V) key :
  OrderedDict.contains d key = true <-> In key (OrderedDict.keys d).
Proof.
  induction d as [|[k v0] rest IH]; simpl.
  - split; [discriminate|contradiction].
  - destruct (String.eqb_spec k key) as [->|Hk].
    + split; auto.
    + rewrite IH. split; [now right|]. intros [Heq|Hin]; [contradiction|exact Hin].
Qed.

Lemma remove_setitem_absent (V : Type) (d : OrderedDict.t V) key v :
  ~ In key (OrderedDict.keys d) ->
  OrderedDict.remove (OrderedDict.setitem d key v) key = d.
Proof.
  induction d as [|[k v0] rest IH]; simpl; intros Hnin.
  - now rewrite String.eqb_refl.
  - destruct (String.eqb_spec k key) as [->|Hk]; simpl.
    + exfalso. apply Hnin. now left.
    + apply String.eqb_neq in Hk. rewrite Hk. f_equal.
      apply IH. intros Hin. apply Hnin. now right.
Qed.

Lemma remove_keys_absent (V : Type) (d : OrderedDict.t V) key :
  OrderedDict.well_formed d ->
  ~ In key (OrderedDict.keys (OrderedDict.remove d key)).
Proof.
  unfold OrderedDict.well_formed.
  induction d as [|[k v0] rest IH]; simpl; intros Hnd; [tauto|].
  inversion Hnd as [|? ? Hnin Hnd']; subst.
  destruct (String.eqb_spec k key) as [->|Hk]; simpl.
  - exact Hnin.
  - intros [Heq|Hin]; [contradiction|]. now apply IH.
Qed.

Lemma filter_other_keys (l : list string) (key : string) :
  ~ In key l -> filter (fun k => negb (k =? key)) l = l.
Proof.
  induction l as [|k rest IH]; simpl; intros Hnin; [reflexivity|].
  destruct (String.eqb_spec k key) as [->|Hk]; simpl.
  - exfalso. apply Hnin. now left.
  - f_equal. apply IH. intros Hin. apply Hnin. now right.
Qed.

Lemma remove_keys_filter (V : Type) (d : OrderedDict.t V) key :
  OrderedDict.well_formed d ->
  OrderedDict.keys (OrderedDict.remove d key)
  = filter (fun k => negb (k =? key)) (OrderedDict.keys d).
Proof.
  unfold OrderedDict.well_formed.
  induction d as [|[k v0] rest IH]; intros Hnd; simpl; [reflexivity|].
  inversion Hnd as [|? ? Hnin Hnd']; subst.
  destruct (String.eqb_spec k key) as [->|Hk]; simpl.
  - symmetry. now apply filter_other_keys.
  - f_equal. now apply IH.
Qed.

Lemma delitem_absent (V : Type) (d : OrderedDict.t V) key :
  ~ In key (OrderedDict.keys d) ->
  OrderedDict.delitem d key = Raise (KeyError key).
Proof.
  intros Hnin. unfold OrderedDict.delitem.
  destruct (OrderedDict.contains d key) eqn:Hc; [|reflexivity].
  apply contains_In in Hc. contradiction.
Qed.

Lemma ConditionSet_eta (s : ConditionSet.t node) :
  ConditionSet.mk (ConditionSet.base s) (ConditionSet._logical s)
    (ConditionSet._conditions s) = s.
Proof. destruct s; reflexivity. Qed.

(** X1. A condition just added is the one [get_condition] returns for it,
    whether its id was new to the set or already there; the conditions
    stored under other ids are returned as before. *)
Theorem add_condition_then_get_condition
    (s : ConditionSet.t node) (condition other : node) :
  ConditionSet.get_condition node_id
    (ConditionSet.add_condition node_id s condition) condition
  = Return condition
  /\ (node_id condition <> node_id other ->
      ConditionSet.get_condition node_id
        (ConditionSet.add_condition node_id s condition) other
      = ConditionSet.get_condition node_id s other).
Proof.
  unfold ConditionSet.get_condition, ConditionSet.add_condition. simpl. split.
  - apply getitem_setitem_same.
  - intros Hne. now apply getitem_setitem_other.
Qed.

(** X2. For a condition whose id is not a key of the set, [get_condition]
    and [remove_condition] both end in [KeyError] with that id. *)
Theorem unknown_condition_is_a_KeyError
    (s : ConditionSet.t node) (condition : node) :
  ~ In (node_id condition) (OrderedDict.keys (ConditionSet._conditions s)) ->
  ConditionSet.get_condition node_id s condition
  = Raise (KeyError (node_id condition))
  /\ ConditionSet.remove_condition node_id s condition
     = Raise (KeyError (node_id condition)).
Proof.
  intros Hnin. unfold ConditionSet.get_condition, ConditionSet.remove_condition.
  split.
  - now apply getitem_absent.
  - now rewrite delitem_absent.
Qed.

(** X3. [add_condition] with an id already in the set replaces the child in
    place: keys and order are as before, and the slot that held the old
    child under that id holds the new one, the children before and after
    it as they were. With a new id it puts the child last. Nothing else
    of the set changes. *)
Theorem add_condition_keys (s : ConditionSet.t node) (condition : node) :
  (In (node_id condition) (OrderedDict.keys (ConditionSet._conditions s)) ->
   OrderedDict.keys
     (ConditionSet._conditions (ConditionSet.add_condition node_id s condition))
   = OrderedDict.keys (ConditionSet._conditions s))
  /\ (forall before old after,
        ConditionSet._conditions s
        = (before ++ (node_id condition, old) :: after)%list ->
        ~ In (node_id condition) (OrderedDict.keys before) ->
        ConditionSet._conditions (ConditionSet.add_condition node_id s condition)
        = (before ++ (node_id condition, condition) :: after)%list)
  /\ (~ In (node_id condition) (OrderedDict.keys (ConditionSet._conditions s)) ->
      ConditionSet._conditions (ConditionSet.add_condition node_id s condition)
      = (ConditionSet._conditions s ++ [(node_id condition, condition)])%list)
  /\ ConditionSet.base (ConditionSet.add_condition node_id s condition)
     = ConditionSet.base s
  /\ ConditionSet._logical (ConditionSet.add_condition node_id s condition)
     = ConditionSet._logical s.
Proof.
  split; [|split; [|split; [|split; reflexivity]]].
  - intros Hin. simpl. now apply setitem_keys_present.
  - intros before old after Hconds Hfresh. simpl. rewrite Hconds.
    now apply setitem_middle.
  - simpl. generalize (node_id condition) as key.
    induction (ConditionSet._conditions s) as [|[k v0] rest IH];
      intros key Hnin; simpl.
    + reflexivity.
    + destruct (String.eqb_spec k key) as [->|Hk].
      * exfalso. apply Hnin. now left.
      * f_equal. apply IH. intros Hin. apply Hnin. now right.
Qed.

(** X4. Removing a condition right after adding it under a new id gives
    the set back as it was. *)
Theorem add_condition_then_remove_condition
    (s : ConditionSet.t node) (condition : node) :
  ~ In (node_id condition) (OrderedDict.keys (ConditionSet._conditions s)) ->
  ConditionSet.remove_condition node_id
    (ConditionSet.add_condition node_id s condition) condition
  = Return s.
Proof.
  intros Hnin. unfold ConditionSet.remove_condition, OrderedDict.delitem. simpl.
  assert (Hc : OrderedDict.contains
                 (OrderedDict.setitem (ConditionSet._conditions s)
                    (node_id condition) condition) (node_id condition) = true).
  { apply contains_In. rewrite setitem_keys_absent by exact Hnin.
    apply in_or_app. right. now left. }
  rewrite Hc, remove_setitem_absent by exact Hnin.
  unfold ConditionSet.set_conditions. simpl. now rewrite ConditionSet_eta.
Qed.

(** X5. After [remove_condition] returns, the removed id is no key of the
    set any more and a second [remove_condition], like [get_condition],
    ends in [KeyError]; the other children keep their order. *)
Theorem remove_condition_removes
    (s s' : ConditionSet.t node) (condition : node) :
  keyed_by_id s ->
  ConditionSet.remove_condition node_id s condition = Return s' ->
  ~ In (node_id condition) (OrderedDict.keys (ConditionSet._conditions s'))
  /\ OrderedDict.keys (ConditionSet._conditions s')
     = filter (fun k => negb (k =? node_id condition))
         (OrderedDict.keys (ConditionSet._conditions s))
  /\ ConditionSet.get_condition node_id s' condition
     = Raise (KeyError (node_id condition))
  /\ ConditionSet.remove_condition node_id s' condition
     = Raise (KeyError (node_id condition)).
Proof.
  intros [Hnd _] Hrm.
  unfold ConditionSet.remove_condition, OrderedDict.delitem in Hrm.
  destruct (OrderedDict.contains _ _); [|discriminate Hrm].
  injection Hrm as <-.
  assert (Hgone :
    ~ In (node_id condition)
        (OrderedDict.keys
           (OrderedDict.remove (ConditionSet._conditions s) (node_id condition))))
    by now apply remove_keys_absent.
  split; [exact Hgone|]. split.
  - simpl. now apply remove_keys_filter.
  - unfold ConditionSet.get_condition, ConditionSet.remove_condition. simpl.
    split; [now apply getitem_absent|now rewrite delitem_absent].
Qed.

(* ------------------------------------------------------------------------- *)
(** ** Binding the context: [on] and [attribute] on a tree *)
(* ------------------------------------------------------------------------- *)

Lemma flat_map_nested (A B C : Type) (f : B -> list C) (g : A -> list B)
    (l : list A) :
  flat_map f (flat_map g l) = flat_map (fun x => flat_map f (g x)) l.
Proof.
  induction l as [|x rest IH]; simpl; [reflexivity|].
  now rewrite flat_map_app, IH.
Qed.

Lemma flat_map_ext_Forall (A B : Type) (f g : A -> list B) (l : list A) :
  Forall (fun x => f x = g x) l -> flat_map f l = flat_map g l.
Proof.
  induction 1 as [|x rest Hx Hrest IH]; simpl; [reflexivity|].
  now rewrite Hx, IH.
Qed.

Lemma map_values_ext_Forall (f g : node -> node) (d : OrderedDict.t node) :
  Forall (fun kc => f (snd kc) = g (snd kc)) d ->
  OrderedDict.map_values f d = OrderedDict.map_values g d.
Proof.
  induction 1 as [|kc rest Hk Hrest IH]; simpl; [reflexivity|].
  now rewrite Hk, IH.
Qed.

Lemma map_values_compose (f g : node -> node) (d : OrderedDict.t node) :
  OrderedDict.map_values f (OrderedDict.map_values g d)
  = OrderedDict.map_values (fun c => f (g c)) d.
Proof.
  unfold OrderedDict.map_values. rewrite map_map. reflexivity.
Qed.

Lemma map_values_id_Forall (f : node -> node) (d : OrderedDict.t node) :
  Forall (fun kc => f (snd kc) = snd kc) d -> OrderedDict.map_values f d = d.
Proof.
  induction 1 as [|[k c] rest Hk Hrest IH]; simpl in *; [reflexivity|].
  now rewrite Hk, IH.
Qed.

Lemma node_on_twice (x y : value) (n : node) :
  node_on y (node_on x n) = node_on y n.
Proof.
  induction n as [c|s IH] using node_induction.
  - reflexivity.
  - change (Composite (ConditionSet.on node_on y (ConditionSet.on node_on x s))
            = Composite (ConditionSet.on node_on y s)).
    unfold ConditionSet.on, ConditionSet.set_conditions, ConditionSet.set_base.
    cbn [ConditionSet._conditions ConditionSet.base ConditionSet._logical].
    rewrite map_values_compose. f_equal. f_equal.
    now apply map_values_ext_Forall.
Qed.

Section Binding.
Context {O : ObjectModel}.

Lemma attribute_children_out (name : string) (items : list (string * node)) :
  snd (ConditionSet.attribute_children node_attribute name items)
  = flat_map (fun kc => snd (node_attribute name (snd kc))) items.
Proof.
  induction items as [|[k c] rest IH]; simpl; [reflexivity|].
  destruct (node_attribute name c) as [c' out].
  destruct (ConditionSet.attribute_children node_attribute name rest)
    as [rest' outs].
  simpl in *. now rewrite IH.
Qed.

(** What [attribute] on a set returns and prints, in one equation. *)
Lemma ConditionSet_attribute_run (name : string) (s : ConditionSet.t node) :
  ConditionSet.attribute node_attribute name s
  = (ConditionSet.mk
       (fst (BaseCondition.attribute name (ConditionSet.base s)))
       (ConditionSet._logical s)
       (OrderedDict.map_values (fun c => fst (node_attribute name c))
          (ConditionSet._conditions s)),
     (snd (BaseCondition.attribute name (ConditionSet.base s))
      ++ flat_map (fun kc => snd (node_attribute name (snd kc)))
           (ConditionSet._conditions s))%list).
Proof.
  pose proof (attribute_children_eq name (ConditionSet._conditions s)) as Hc.
  pose proof (attribute_children_out name (ConditionSet._conditions s)) as Ho.
  unfold ConditionSet.attribute, OrderedDict.items.
  destruct (BaseCondition.attribute name (ConditionSet.base s)) as [b out].
  simpl.
  destruct (ConditionSet.attribute_children node_attribute name
              (ConditionSet._conditions s)) as [cs outs].
  simpl in *. now rewrite Hc, Ho.
Qed.

Lemma node_attribute_Composite (name : string) (s : ConditionSet.t node) :
  node_attribute name (Composite s)
  = (Composite (fst (ConditionSet.attribute node_attribute name s)),
     snd (ConditionSet.attribute node_attribute name s)).
Proof.
  simpl. now destruct (ConditionSet.attribute node_attribute name s).
Qed.

Lemma BaseCondition_attribute_out (name : string) (b : BaseCondition.t) :
  snd (BaseCondition.attribute name b)
  = if hasattr (BaseCondition._evaluated_instance b) name then []
    else [BaseCondition.not_a_valid_attribute name
            (BaseCondition._evaluated_instance b)].
Proof.
  unfold BaseCondition.attribute.
  now destruct (hasattr (BaseCondition._evaluated_instance b) name).
Qed.

Lemma node_attribute_out (name : string) (n : node) :
  snd (node_attribute name n) = flat_map (diagnostic name) (subtree n).
Proof.
  induction n as [c|s IH] using node_induction.
  - simpl. unfold Condition.attribute, diagnostic. simpl.
    pose proof (BaseCondition_attribute_out name (Condition.base c)) as Hb.
    destruct (BaseCondition.attribute name (Condition.base c)) as [b out].
    simpl in *. rewrite Hb. unfold Condition._evaluated_instance.
    now rewrite app_nil_r.
  - rewrite node_attribute_Composite, ConditionSet_attribute_run. simpl.
    rewrite BaseCondition_attribute_out. unfold diagnostic at 1. simpl.
    unfold ConditionSet._evaluated_instance. f_equal.
    rewrite flat_map_nested. now apply flat_map_ext_Forall.
Qed.

(** C5, as amended. [attribute(name)] on a set goes through the set and
    every node below it, at any depth; at each node the name is stored
    where the node's own evaluated instance has an attribute of that
    name, and the node keeps the binding it had where it has not.
    Ids and evaluated instances are left as they were. Each node that
    keeps its binding, the set included, prints its line, and no other
    line is printed. *)
Theorem ConditionSet_attribute_rebinds_where_valid
    (name : string) (s : ConditionSet.t node) :
  Forall2 (rebound name)
    (descendants (Composite s))
    (descendants (Composite (fst (ConditionSet.attribute node_attribute name s))))
  /\ ConditionSet._evaluated_attribute
       (fst (ConditionSet.attribute node_attribute name s))
     = (if hasattr (ConditionSet._evaluated_instance s) name
        then Some name
        else ConditionSet._evaluated_attribute s)
  /\ snd (ConditionSet.attribute node_attribute name s)
     = flat_map
         (fun d =>
            if hasattr (node_evaluated_instance d) name then []
            else [name ++ " is not a valid attribute for the "
                       ++ class_name (node_evaluated_instance d) ++ " class."])
         (subtree (Composite s)).
Proof.
  pose proof (node_attribute_subtree name (Composite s)) as Hall.
  pose proof (node_attribute_out name (Composite s)) as Hout.
  rewrite node_attribute_Composite in Hall, Hout. cbn [fst snd] in Hall, Hout.
  simpl in Hall. inversion Hall as [|? ? ? ? Hroot Hbelow]; subst.
  split; [exact Hbelow|]. split; [apply Hroot|exact Hout].
Qed.

(** X7. [attribute(name)] on a set prints one line for each node, the set
    included, whose own evaluated instance has no attribute of that name,
    and no other line; the lines come in the order of the tree, a set
    before its children, and name the class of the refusing node's
    instance. *)
Theorem ConditionSet_attribute_diagnostics
    (name : string) (s : ConditionSet.t node) :
  snd (ConditionSet.attribute node_attribute name s)
  = flat_map (diagnostic name) (subtree (Composite s)).
Proof.
  rewrite <- node_attribute_out, node_attribute_Composite. reflexivity.
Qed.

Lemma BaseCondition_attribute_twice (name : string) (b : BaseCondition.t) :
  BaseCondition.attribute name (fst (BaseCondition.attribute name b))
  = BaseCondition.attribute name b.
Proof.
  unfold BaseCondition.attribute.
  destruct (hasattr (BaseCondition._evaluated_instance b) name) eqn:Hh; simpl;
    now rewrite Hh.
Qed.

Lemma node_attribute_twice (name : string) (n : node) :
  node_attribute name (fst (node_attribute name n)) = node_attribute name n.
Proof.
  induction n as [c|s IH] using node_induction.
  - simpl. unfold Condition.attribute, BaseCondition.attribute.
    destruct (hasattr (BaseCondition._evaluated_instance (Condition.base c)) name)
      eqn:Hh; cbn; unfold Condition.attribute, BaseCondition.attribute; cbn;
      rewrite Hh; reflexivity.
  - rewrite !node_attribute_Composite, !ConditionSet_attribute_run.
    cbn [fst snd].
    rewrite node_attribute_Composite, ConditionSet_attribute_run.
    cbn [fst snd ConditionSet.base ConditionSet._conditions ConditionSet._logical].
    rewrite BaseCondition_attribute_twice, map_values_compose.
    f_equal.
    + f_equal. f_equal. apply map_values_ext_Forall.
      eapply Forall_impl; [|exact IH]. intros kc Hkc. simpl. now rewrite Hkc.
    + f_equal.
      rewrite (@flat_map_map_values _ (fun c => fst (node_attribute name c))
                 (fun c => snd (node_attribute name c))).
      apply flat_map_ext_Forall.
      eapply Forall_impl; [|exact IH]. intros kc Hkc. simpl. now rewrite Hkc.
Qed.

(** X8. [attribute(name)] called twice in a row on a set leaves the state
    that one call leaves, and the second call prints the lines of the
    first again. *)
Theorem ConditionSet_attribute_twice (name : string) (s : ConditionSet.t node) :
  ConditionSet.attribute node_attribute name
    (fst (ConditionSet.attribute node_attribute name s))
  = ConditionSet.attribute node_attribute name s.
Proof.
  pose proof (node_attribute_twice name (Composite s)) as H.
  rewrite (node_attribute_Composite name s) in H. cbn [fst] in H.
  rewrite node_attribute_Composite in H. injection H as Hs Ho.
  rewrite (surjective_pairing
             (ConditionSet.attribute node_attribute name
                (fst (ConditionSet.attribute node_attribute name s)))).
  rewrite Hs, Ho. symmetry. apply surjective_pairing.
Qed.
End Binding.

Section BindingTogether.
Context {O : ObjectModel}.

Lemma Forall2_Forall_after (R : node -> node -> Prop) (P Q : node -> Prop)
    (l l' : list node) :
  (forall d d', R d d' -> P d -> Q d') ->
  Forall2 R l l' -> Forall P l -> Forall Q l'.
Proof.
  intros Hstep H2. induction H2 as [|d d' l l' Hd Hrest IH]; intros Hall.
  - constructor.
  - inversion Hall; subst. constructor; eauto.
Qed.

Lemma flat_map_diagnostic_accepting (name : string) (x : value) (l : list node) :
  hasattr x name = true ->
  Forall (fun d => node_evaluated_instance d = x) l ->
  flat_map (diagnostic name) l = [].
Proof.
  intros Hh. induction 1 as [|d rest Hd Hrest IH]; simpl; [reflexivity|].
  unfold diagnostic at 1. now rewrite Hd, Hh.
Qed.

Lemma flat_map_diagnostic_refusing (name : string) (x : value) (l : list node) :
  hasattr x name = false ->
  Forall (fun d => node_evaluated_instance d = x) l ->
  flat_map (diagnostic name) l
  = repeat (BaseCondition.not_a_valid_attribute name x) (length l).
Proof.
  intros Hh. induction 1 as [|d rest Hd Hrest IH]; simpl; [reflexivity|].
  unfold diagnostic at 1. rewrite Hd, Hh. simpl. now rewrite IH.
Qed.

Lemma Forall_flat_map_subtree (P : node -> Prop) (d : OrderedDict.t node) :
  Forall P (flat_map (fun kc => subtree (snd kc)) d) ->
  Forall (fun kc => Forall P (subtree (snd kc))) d.
Proof.
  intros H. now apply Forall_flat_map in H.
Qed.

Lemma node_attribute_refused (name : string) (x : value) (n : node) :
  hasattr x name = false ->
  Forall (fun d => node_evaluated_instance d = x) (subtree n) ->
  fst (node_attribute name n) = n.
Proof.
  intros Hh. induction n as [c|s IH] using node_induction; intros Hall.
  - pose proof (Forall_inv Hall) as Hroot. simpl in Hroot.
    simpl. unfold Condition.attribute, BaseCondition.attribute.
    unfold Condition._evaluated_instance in Hroot. rewrite Hroot, Hh.
    destruct c; reflexivity.
  - pose proof (Forall_inv Hall) as Hroot. simpl in Hroot.
    pose proof (Forall_inv_tail Hall) as Hbelow.
    rewrite node_attribute_Composite, ConditionSet_attribute_run.
    cbn [fst]. unfold BaseCondition.attribute.
    unfold ConditionSet._evaluated_instance in Hroot. rewrite Hroot, Hh.
    cbn [fst]. rewrite map_values_id_Forall.
    + now rewrite ConditionSet_eta.
    + apply Forall_flat_map_subtree in Hbelow.
      revert Hbelow. clear Hall Hroot.
      induction IH as [|kc rest Hk Hrest IHrest]; intros Hbelow;
        [constructor|].
      pose proof (Forall_inv Hbelow). pose proof (Forall_inv_tail Hbelow).
      constructor; auto.
Qed.

(** X9. Binding a set to a target and then to an attribute name, as the
    fluent interface is meant to be used: when the target has an
    attribute of that name, the name is stored at the set and at every
    node below it and nothing is printed; when it has none, no state
    changes at all and every node, the set included, prints its line. *)
Theorem ConditionSet_on_then_attribute
    (x : value) (name : string) (s : ConditionSet.t node) :
  (hasattr x name = true ->
   Forall (fun d => node_evaluated_attribute d = Some name)
     (subtree
        (Composite
           (fst (ConditionSet.attribute node_attribute name
                   (ConditionSet.on node_on x s)))))
   /\ snd (ConditionSet.attribute node_attribute name
             (ConditionSet.on node_on x s)) = [])
  /\ (hasattr x name = false ->
      ConditionSet.attribute node_attribute name (ConditionSet.on node_on x s)
      = (ConditionSet.on node_on x s,
         repeat (BaseCondition.not_a_valid_attribute name x)
           (length (subtree (Composite s))))).
Proof.
  destruct (node_on_subtree x (Composite s)) as [Hbound Hids].
  change (node_on x (Composite s))
    with (Composite (ConditionSet.on node_on x s)) in Hbound, Hids.
  pose proof (node_attribute_out name (Composite (ConditionSet.on node_on x s)))
    as Hout.
  rewrite node_attribute_Composite in Hout. cbn [snd] in Hout.
  split; intros Hh.
  - split.
    + pose proof (node_attribute_subtree name
                    (Composite (ConditionSet.on node_on x s))) as Hreb.
      rewrite node_attribute_Composite in Hreb. cbn [fst] in Hreb.
      eapply Forall2_Forall_after; [|exact Hreb|exact Hbound].
      intros d d' (_ & _ & Hattr) Hd. simpl in Hattr.
      now rewrite Hattr, Hd, Hh.
    + rewrite Hout. now apply flat_map_diagnostic_accepting with (x := x).
  - pose proof (node_attribute_refused name
                  (Composite (ConditionSet.on node_on x s)) Hh Hbound) as Hfst.
    rewrite node_attribute_Composite in Hfst. cbn [fst] in Hfst.
    injection Hfst as Hfst.
    rewrite (surjective_pairing
               (ConditionSet.attribute node_attribute name
                  (ConditionSet.on node_on x s))).
    rewrite Hfst, Hout.
    rewrite (@flat_map_diagnostic_refusing name x _ Hh Hbound).
    f_equal. f_equal.
    rewrite <- (length_map node_id), Hids. apply length_map.
Qed.
End BindingTogether.

(* ------------------------------------------------------------------------- *)
(** ** Evaluating a tree *)
(* ------------------------------------------------------------------------- *)

Lemma first_raised_app (l1 l2 : list completion) :
  first_raised (l1 ++ l2)
  = match first_raised l1 with
    | Returned => first_raised l2
    | Raised e => Raised e
    end.
Proof.
  induction l1 as [|[|e] rest IH]; simpl; auto.
Qed.

Lemma first_raised_Returned (l : list completion) :
  first_raised l = Returned <-> Forall (fun r => r = Returned) l.
Proof.
  induction l as [|[|e] rest IH]; simpl.
  - split; constructor.
  - rewrite IH. split.
    + now constructor.
    + intros H. now apply Forall_inv_tail in H.
  - split; [discriminate|]. intros H. apply Forall_inv in H. discriminate.
Qed.

Section TreeEvaluate.
Context {O : ObjectModel} {L : PredicateLibrary}.

#[local] Abbreviation evaluate_children :=
  (ConditionSet.evaluate_children node_id node_evaluate).
#[local] Abbreviation evaluate_set :=
  (ConditionSet.evaluate node_id node_is_valid node_evaluate).
#[local] Abbreviation own_key := (fun kc : string * node => fst kc = node_id (snd kc)).
#[local] Abbreviation evaluated := (fun c : node => fst (node_evaluate c)).

Lemma evaluate_children_completion (items : list (string * node))
    (self : ConditionSet.t node) :
  snd (evaluate_children items self)
  = first_raised (map (fun kc => snd (node_evaluate (snd kc))) items).
Proof.
  revert self. induction items as [|[k c] rest IH]; intros self; simpl.
  - reflexivity.
  - destruct (node_evaluate c) as [c' [|e]]; simpl; [apply IH|reflexivity].
Qed.

Lemma ConditionSet_evaluate_completion (s : ConditionSet.t node) :
  snd (evaluate_set s)
  = snd (evaluate_children (ConditionSet._conditions s) s).
Proof.
  unfold ConditionSet.evaluate, OrderedDict.items.
  destruct (evaluate_children (ConditionSet._conditions s) s) as [s1 [|e]];
    simpl; [|reflexivity].
  destruct (ConditionSet._logical s1 =? "all");
    [|destruct (ConditionSet._logical s1 =? "any")]; reflexivity.
Qed.

Lemma node_evaluate_completion (n : node) :
  snd (node_evaluate n)
  = first_raised (map (fun c => snd (Condition.evaluate c)) (conditions_of n)).
Proof.
  induction n as [c|s IH] using node_induction.
  - simpl. destruct (Condition.evaluate c) as [c' [|e]]; reflexivity.
  - assert (Hset : snd (node_evaluate (Composite s)) = snd (evaluate_set s)).
    { simpl. now destruct (evaluate_set s). }
    rewrite Hset, ConditionSet_evaluate_completion, evaluate_children_completion.
    simpl. induction IH as [|kc rest Hk Hrest IHrest]; simpl; [reflexivity|].
    rewrite map_app, first_raised_app, <- Hk, <- IHrest.
    now destruct (snd (node_evaluate (snd kc))).
Qed.

(** X10. [evaluate] on a set ends as the first of the conditions of the
    tree, taken in the order of the dictionaries, whose own [evaluate]
    raises, with that exception; it returns exactly when no condition of
    the tree raises. No exception is caught or replaced on the way up. *)
Theorem ConditionSet_evaluate_ends_as_first_raising (s : ConditionSet.t node) :
  snd (ConditionSet.evaluate node_id node_is_valid node_evaluate s)
  = first_raised
      (map (fun c => snd (Condition.evaluate c)) (conditions_of (Composite s)))
  /\ (snd (ConditionSet.evaluate node_id node_is_valid node_evaluate s) = Returned
      <-> Forall (fun c => snd (Condition.evaluate c) = Returned)
            (conditions_of (Composite s))).
Proof.
  assert (Hend :
    snd (evaluate_set s)
    = first_raised
        (map (fun c => snd (Condition.evaluate c)) (conditions_of (Composite s)))).
  { rewrite <- node_evaluate_completion. simpl. now destruct (evaluate_set s). }
  split; [exact Hend|].
  rewrite Hend, first_raised_Returned, Forall_map. reflexivity.
Qed.

Lemma evaluate_children_set_logical (l : string) (items : list (string * node))
    (self : ConditionSet.t node) :
  evaluate_children items (ConditionSet.set_logical self l)
  = (ConditionSet.set_logical (fst (evaluate_children items self)) l,
     snd (evaluate_children items self)).
Proof.
  revert self. induction items as [|[k c] rest IH]; intros self; simpl.
  - reflexivity.
  - destruct (node_evaluate c) as [c' [|e]]; [|reflexivity].
    apply (IH (ConditionSet.add_condition node_id self c')).
Qed.

(** The validity a set computes from the children it holds, under a given
    combinator. *)
Lemma ConditionSet_evaluate_under (l : string) (s : ConditionSet.t node) :
  evaluate_set (ConditionSet.set_logical s l)
  = match evaluate_children (ConditionSet._conditions s) s with
    | (s1, Returned) =>
        (ConditionSet.set_is_valid (ConditionSet.set_logical s1 l)
           (VBool
              (if l =? "all"
               then all (map node_is_valid (children (Composite s1)))
               else if l =? "any"
               then any (map node_is_valid (children (Composite s1)))
               else negb (any (map node_is_valid (children (Composite s1)))))),
         Returned)
    | (s1, Raised e) => (ConditionSet.set_logical s1 l, Raised e)
    end.
Proof.
  unfold ConditionSet.evaluate, OrderedDict.items.
  cbn [ConditionSet._conditions ConditionSet.set_logical].
  change (ConditionSet.mk (ConditionSet.base s) l (ConditionSet._conditions s))
    with (ConditionSet.set_logical s l).
  rewrite evaluate_children_set_logical.
  destruct (evaluate_children (ConditionSet._conditions s) s) as [s1 [|e]];
    cbn [fst snd]; [|reflexivity].
  cbn [ConditionSet._logical ConditionSet.set_logical ConditionSet._conditions
       children].
  unfold OrderedDict.values. rewrite map_map.
  destruct (l =? "all"); [|destruct (l =? "any")]; reflexivity.
Qed.

Lemma setitem_length (V : Type) (d : OrderedDict.t V) key v :
  length d <= length (OrderedDict.setitem d key v).
Proof.
  induction d as [|[k v0] rest IH]; simpl; [lia|].
  destruct (k =? key); simpl; lia.
Qed.

Lemma evaluate_children_length (items : list (string * node))
    (self : ConditionSet.t node) :
  length (ConditionSet._conditions self)
  <= length (ConditionSet._conditions (fst (evaluate_children items self))).
Proof.
  revert self. induction items as [|[k c] rest IH]; intros self; simpl.
  - lia.
  - destruct (node_evaluate c) as [c' [|e]]; simpl.
    + etransitivity; [|apply IH]. simpl. apply setitem_length.
    + apply setitem_length.
Qed.

(** X11. The combinator does not matter to which children are evaluated
    nor to how [evaluate] ends, only to the validity stored. On the same
    set, when [evaluate] returns under "any" it returns under "none" and
    under "all" with the same children, the validity under "none" is the
    negation of that under "any", and on a set with children a true
    validity under "all" comes with a true validity under "any". *)
Theorem ConditionSet_combinators_agree (s sa : ConditionSet.t node) :
  ConditionSet.evaluate node_id node_is_valid node_evaluate
    (ConditionSet.when_any_condition_is_true s) = (sa, Returned) ->
  exists (sn sl : ConditionSet.t node) (any_true all_true : bool),
    ConditionSet.evaluate node_id node_is_valid node_evaluate
      (ConditionSet.when_no_conditions_are_true s) = (sn, Returned)
    /\ ConditionSet.evaluate node_id node_is_valid node_evaluate
         (ConditionSet.when_all_conditions_are_true s) = (sl, Returned)
    /\ ConditionSet._conditions sn = ConditionSet._conditions sa
    /\ ConditionSet._conditions sl = ConditionSet._conditions sa
    /\ ConditionSet._is_valid sa = VBool any_true
    /\ ConditionSet._is_valid sn = VBool (negb any_true)
    /\ ConditionSet._is_valid sl = VBool all_true
    /\ (ConditionSet._conditions s <> [] -> all_true = true -> any_true = true).
Proof.
  unfold ConditionSet.when_any_condition_is_true,
    ConditionSet.when_no_conditions_are_true,
    ConditionSet.when_all_conditions_are_true.
  rewrite !ConditionSet_evaluate_under.
  pose proof (evaluate_children_length (ConditionSet._conditions s) s) as Hlen.
  destruct (evaluate_children (ConditionSet._conditions s) s) as [s1 [|e]];
    [|discriminate].
  intros Hany. injection Hany as <-.
  exists (ConditionSet.set_is_valid (ConditionSet.set_logical s1 "none")
            (VBool (negb (any (map node_is_valid (children (Composite s1))))))),
    (ConditionSet.set_is_valid (ConditionSet.set_logical s1 "all")
       (VBool (all (map node_is_valid (children (Composite s1)))))),
    (any (map node_is_valid (children (Composite s1)))),
    (all (map node_is_valid (children (Composite s1)))).
  repeat split.
  intros Hne Hall. simpl in Hlen.
  unfold all, any in *. simpl in *. unfold OrderedDict.values in *.
  destruct (ConditionSet._conditions s1) as [|[k c] rest].
  - destruct (ConditionSet._conditions s); [contradiction|simpl in Hlen; lia].
  - simpl in *. apply andb_prop in Hall. destruct Hall as [Hc _].
    now rewrite Hc.
Qed.
End TreeEvaluate.

Section TreeEvaluateStates.
Context {O : ObjectModel} {L : PredicateLibrary}.

#[local] Abbreviation evaluate_children :=
  (ConditionSet.evaluate_children node_id node_evaluate).
#[local] Abbreviation evaluate_set :=
  (ConditionSet.evaluate node_id node_is_valid node_evaluate).
#[local] Abbreviation own_key := (fun kc : string * node => fst kc = node_id (snd kc)).
#[local] Abbreviation returned :=
  (fun kc : string * node => snd (node_evaluate (snd kc)) = Returned).

(** The loop of line 233 when a child raises: the children before it are
    stored as evaluated, the child itself is left as it was when it
    raised, the children after it are not touched. *)
Lemma evaluate_children_raised (pre post done : list (string * node))
    (k : string) (c c' : node) (e : exn) (self : ConditionSet.t node) :
  ConditionSet._conditions self = (done ++ pre ++ (k, c) :: post)%list ->
  NoDup (map fst (done ++ pre ++ (k, c) :: post)) ->
  Forall own_key pre ->
  Forall returned pre ->
  node_evaluate c = (c', Raised e) ->
  evaluate_children (pre ++ (k, c) :: post) self
  = (ConditionSet.set_conditions self
       (done
        ++ OrderedDict.map_values (fun c => fst (node_evaluate c)) pre
        ++ (k, c') :: post)%list,
     Raised e).
Proof.
  revert done self.
  induction pre as [|[k1 c1] pre IH]; intros done self Hself Hnd Hown Hret Hc.
  - simpl in *. rewrite Hc, Hself.
    rewrite setitem_middle; [reflexivity|].
    rewrite map_app in Hnd. simpl in Hnd.
    apply NoDup_remove_2 in Hnd. intros Hin. apply Hnd.
    apply in_or_app. now left.
  - pose proof (Forall_inv Hown) as Hk1. simpl in Hk1.
    pose proof (Forall_inv Hret) as Hr1. simpl in Hr1.
    pose proof (@node_evaluate_id O L c1) as Hid.
    simpl. destruct (node_evaluate c1) as [c1' r1]. simpl in Hr1, Hid.
    subst r1.
    assert (Hfresh : ~ In k1 (map fst done)).
    { rewrite map_app in Hnd. simpl in Hnd.
      apply NoDup_remove_2 in Hnd. intros Hin. apply Hnd.
      apply in_or_app. now left. }
    rewrite (IH (done ++ [(k1, c1')])%list).
    + unfold ConditionSet.set_conditions, ConditionSet.add_condition. simpl.
      now rewrite <- !app_assoc.
    + simpl. rewrite Hself, Hid, <- Hk1.
      rewrite <- app_comm_cons.
      rewrite setitem_middle by exact Hfresh.
      now rewrite <- app_assoc.
    + rewrite <- app_assoc.
      rewrite ?map_app in *; simpl in *; rewrite ?map_app in *. exact Hnd.
    + exact (Forall_inv_tail Hown).
    + exact (Forall_inv_tail Hret).
    + exact Hc.
Qed.

Lemma ConditionSet_evaluate_raised
    (s : ConditionSet.t node) (pre post : list (string * node))
    (k : string) (c c' : node) (e : exn) :
  keyed_by_id s ->
  ConditionSet._conditions s = (pre ++ (k, c) :: post)%list ->
  Forall returned pre ->
  node_evaluate c = (c', Raised e) ->
  evaluate_set s
  = (ConditionSet.set_conditions s
       (OrderedDict.map_values (fun c => fst (node_evaluate c)) pre
        ++ (k, c') :: post)%list,
     Raised e).
Proof.
  intros [Hnd Hown] Hconds Hret Hc.
  unfold ConditionSet.evaluate, OrderedDict.items. rewrite Hconds.
  rewrite (@evaluate_children_raised pre post [] k c c' e s); auto.
  - unfold OrderedDict.well_formed, OrderedDict.keys in Hnd.
    now rewrite Hconds in Hnd.
  - rewrite Hconds in Hown. apply Forall_app in Hown. tauto.
Qed.

(** X12. When a child of a set raises, [evaluate] on the set ends with the
    child's exception and the set keeps the validity state it had: the
    children before the one that raised are stored as evaluated, that
    child is left as it was when it raised, the children after it have
    not been evaluated. *)
Theorem ConditionSet_evaluate_child_raises
    (s : ConditionSet.t node) (pre post : list (string * node))
    (k : string) (c c' : node) (e : exn) :
  keyed_by_id s ->
  ConditionSet._conditions s = (pre ++ (k, c) :: post)%list ->
  Forall (fun kc => snd (node_evaluate (snd kc)) = Returned) pre ->
  node_evaluate c = (c', Raised e) ->
  ConditionSet.evaluate node_id node_is_valid node_evaluate s
  = (ConditionSet.set_conditions s
       (OrderedDict.map_values (fun c => fst (node_evaluate c)) pre
        ++ (k, c') :: post)%list,
     Raised e)
  /\ ConditionSet._is_valid
       (fst (ConditionSet.evaluate node_id node_is_valid node_evaluate s))
     = ConditionSet._is_valid s.
Proof.
  intros Hkeyed Hconds Hret Hc.
  pose proof (@ConditionSet_evaluate_raised s pre post k c c' e
                Hkeyed Hconds Hret Hc) as Hrun.
  split; [exact Hrun|]. now rewrite Hrun.
Qed.

(** What [evaluate] on a set leaves when it returns. *)
Lemma ConditionSet_evaluate_returned (s s' : ConditionSet.t node) :
  keyed_by_id s ->
  evaluate_set s = (s', Returned) ->
  ConditionSet._conditions s'
  = OrderedDict.map_values (fun c => fst (node_evaluate c))
      (ConditionSet._conditions s)
  /\ Forall returned (ConditionSet._conditions s)
  /\ ConditionSet._is_valid s'
     = VBool
         (let states :=
            map (fun kc => node_is_valid (fst (node_evaluate (snd kc))))
              (ConditionSet._conditions s) in
          if ConditionSet._logical s =? "all" then all states
          else if ConditionSet._logical s =? "any" then any states
          else negb (any states)).
Proof.
  intros [Hnd Hown] Hrun.
  unfold ConditionSet.evaluate, OrderedDict.items in Hrun.
  destruct (@evaluate_children_frame O L (ConditionSet._conditions s) s)
    as [_ Hlogical].
  destruct (evaluate_children (ConditionSet._conditions s) s)
    as [s1 [|e]] eqn:Hloop; [|discriminate Hrun].
  simpl in Hlogical.
  destruct (@evaluate_children_values O L (ConditionSet._conditions s) [] s s1
              eq_refl Hnd Hown Hloop) as [Hconds Hall].
  simpl in Hconds.
  assert (Hstates :
    map (fun kc : string * node => node_is_valid (snd kc))
      (ConditionSet._conditions s1)
    = map (fun kc => node_is_valid (fst (node_evaluate (snd kc))))
        (ConditionSet._conditions s)).
  { rewrite Hconds. unfold OrderedDict.map_values. now rewrite map_map. }
  rewrite Hstates, Hlogical in Hrun. cbv zeta.
  destruct (ConditionSet._logical s =? "all");
    [|destruct (ConditionSet._logical s =? "any")];
    injection Hrun as <-; repeat split; assumption.
Qed.
End TreeEvaluateStates.

Lemma deeply_keyed_Composite (s : ConditionSet.t node) :
  deeply_keyed (Composite s)
  <-> keyed_by_id s
      /\ Forall (fun kc => deeply_keyed (snd kc)) (ConditionSet._conditions s).
Proof.
  simpl. split; intros [Hk Heach]; (split; [exact Hk|]).
  - induction (ConditionSet._conditions s) as [|kc rest IH]; constructor;
      destruct Heach; auto.
  - induction Heach; simpl; auto.
Qed.

Lemma forallb_truthy_pointwise (A : Type) (f : A -> value) (g : A -> bool)
    (l : list A) :
  Forall (fun x => truthy (f x) = g x) l ->
  all (map f l) = forallb (fun b => b) (map g l)
  /\ any (map f l) = existsb (fun b => b) (map g l).
Proof.
  unfold all, any.
  induction 1 as [|x rest Hx Hrest [IHall IHany]]; simpl; [split; reflexivity|].
  now rewrite Hx, IHall, IHany.
Qed.

Lemma Forall2_flat_map2 (A B : Type) (R : B -> B -> Prop)
    (g h : A -> list B) (l l' : list A) :
  Forall2 (fun x y => Forall2 R (g x) (h y)) l l' ->
  Forall2 R (flat_map g l) (flat_map h l').
Proof.
  induction 1 as [|x y l l' Hxy Hrest IH]; simpl.
  - constructor.
  - now apply Forall2_app.
Qed.

Lemma Forall2_refine (A : Type) (R Q : A -> A -> Prop) (P : A -> Prop)
    (l l' : list A) :
  (forall x y, R x y -> P x -> Q x y) ->
  Forall2 R l l' -> Forall P l -> Forall2 Q l l'.
Proof.
  intros Hstep H2. induction H2 as [|x y l l' Hxy Hrest IH]; intros Hall.
  - constructor.
  - constructor.
    + apply Hstep; [exact Hxy|exact (Forall_inv Hall)].
    + apply IH. exact (Forall_inv_tail Hall).
Qed.

Lemma same_context_refl (n : node) : same_context n n.
Proof. repeat split. Qed.

Lemma Forall2_same_context_refl (l : list node) : Forall2 same_context l l.
Proof. induction l; constructor; auto using same_context_refl. Qed.

Section TreeEvaluateDeep.
Context {O : ObjectModel} {L : PredicateLibrary}.

#[local] Abbreviation evaluate_children :=
  (ConditionSet.evaluate_children node_id node_evaluate).
#[local] Abbreviation evaluate_set :=
  (ConditionSet.evaluate node_id node_is_valid node_evaluate).
#[local] Abbreviation own_key := (fun kc : string * node => fst kc = node_id (snd kc)).
#[local] Abbreviation returned :=
  (fun kc : string * node => snd (node_evaluate (snd kc)) = Returned).

Lemma node_evaluate_Composite (s : ConditionSet.t node) :
  node_evaluate (Composite s)
  = (Composite (fst (evaluate_set s)), snd (evaluate_set s)).
Proof. simpl. now destruct (evaluate_set s). Qed.

Lemma node_evaluate_verdict (n : node) :
  deeply_keyed n ->
  snd (node_evaluate n) = Returned ->
  truthy (node_is_valid (fst (node_evaluate n))) = verdict n.
Proof.
  induction n as [c|s IH] using node_induction; intros Hdeep Hret.
  - simpl. now destruct (Condition.evaluate c).
  - apply deeply_keyed_Composite in Hdeep. destruct Hdeep as [Hkeyed Hdeep].
    rewrite node_evaluate_Composite in *. cbn [fst snd] in *.
    destruct (@ConditionSet_evaluate_returned O L s (fst (evaluate_set s)) Hkeyed)
      as (_ & Hall & Hvalid).
    { rewrite <- Hret. apply surjective_pairing. }
    change (node_is_valid (Composite (fst (evaluate_set s))))
      with (ConditionSet._is_valid (fst (evaluate_set s))).
    rewrite Hvalid. cbv zeta.
    assert (Hpoint :
      Forall (fun kc => truthy (node_is_valid (fst (node_evaluate (snd kc))))
                        = verdict (snd kc)) (ConditionSet._conditions s)).
    { clear Hvalid Hret Hkeyed.
      induction IH as [|kc rest Hk Hrest IHrest]; [constructor|].
      constructor.
      - apply Hk; [exact (Forall_inv Hdeep)|exact (Forall_inv Hall)].
      - apply IHrest; [exact (Forall_inv_tail Hdeep)|exact (Forall_inv_tail Hall)]. }
    destruct (forallb_truthy_pointwise _ _ Hpoint) as [Hforall Hexists].
    simpl. rewrite Hforall, Hexists.
    destruct (ConditionSet._logical s =? "all");
      [|destruct (ConditionSet._logical s =? "any")]; reflexivity.
Qed.

(** X13. The validity state that [evaluate] leaves on a set is the truth
    value of the tree, computed from its conditions alone: each condition
    counts as what its own [evaluate] finds, and every set of the tree,
    at any depth, combines its children by its own combinator. *)
Theorem ConditionSet_evaluate_is_verdict (s s' : ConditionSet.t node) :
  deeply_keyed (Composite s) ->
  ConditionSet.evaluate node_id node_is_valid node_evaluate s = (s', Returned) ->
  ConditionSet._is_valid s' = VBool (verdict (Composite s)).
Proof.
  intros Hdeep Hrun.
  pose proof (node_evaluate_verdict (Composite s) Hdeep) as Hv.
  rewrite node_evaluate_Composite, Hrun in Hv. cbn [fst snd] in Hv.
  apply deeply_keyed_Composite in Hdeep. destruct Hdeep as [Hkeyed _].
  destruct (@ConditionSet_evaluate_returned O L s s' Hkeyed Hrun)
    as (_ & _ & Hvalid).
  rewrite <- (Hv eq_refl).
  change (node_is_valid (Composite s')) with (ConditionSet._is_valid s').
  rewrite Hvalid. reflexivity.
Qed.
End TreeEvaluateDeep.

Section TreeEvaluateFrame.
Context {O : ObjectModel} {L : PredicateLibrary}.

#[local] Abbreviation evaluate_children :=
  (ConditionSet.evaluate_children node_id node_evaluate).
#[local] Abbreviation evaluate_set :=
  (ConditionSet.evaluate node_id node_is_valid node_evaluate).
#[local] Abbreviation own_key := (fun kc : string * node => fst kc = node_id (snd kc)).
#[local] Abbreviation returned :=
  (fun kc : string * node => snd (node_evaluate (snd kc)) = Returned).
#[local] Abbreviation stored_or_evaluated :=
  (fun kc kc' : string * node =>
     fst kc' = fst kc
     /\ (snd kc' = snd kc \/ snd kc' = fst (node_evaluate (snd kc)))).

Lemma first_raising_child (items : list (string * node)) :
  Forall returned items
  \/ exists pre k c post c' e,
      items = (pre ++ (k, c) :: post)%list
      /\ Forall returned pre
      /\ node_evaluate c = (c', Raised e).
Proof.
  induction items as [|[k c] rest IH].
  - left. constructor.
  - destruct (node_evaluate c) as [c' [|e]] eqn:Hc.
    + destruct IH as [Hall|(pre & k1 & c1 & post & c1' & e & -> & Hpre & Hc1)].
      * left. constructor; [simpl; now rewrite Hc|exact Hall].
      * right. exists ((k, c) :: pre), k1, c1, post, c1', e.
        repeat split; [|exact Hc1].
        constructor; [simpl; now rewrite Hc|exact Hpre].
    + right. exists [], k, c, rest, c', e. repeat split; [constructor|exact Hc].
Qed.

Lemma ConditionSet_evaluate_context (s : ConditionSet.t node) :
  same_context (Composite s) (Composite (fst (evaluate_set s))).
Proof.
  unfold same_context, ConditionSet.evaluate, OrderedDict.items. simpl.
  destruct (@evaluate_children_frame O L (ConditionSet._conditions s) s)
    as [Hb _].
  destruct (evaluate_children (ConditionSet._conditions s) s) as [s1 [|e]];
    simpl in *.
  - unfold ConditionSet.id, ConditionSet._evaluated_instance,
      ConditionSet._evaluated_attribute.
    destruct (ConditionSet._logical s1 =? "all");
      [|destruct (ConditionSet._logical s1 =? "any")];
      simpl; rewrite Hb; repeat split; reflexivity.
  - unfold ConditionSet.id, ConditionSet._evaluated_instance,
      ConditionSet._evaluated_attribute.
    rewrite Hb. repeat split; reflexivity.
Qed.

Lemma ConditionSet_evaluate_pointwise (s : ConditionSet.t node) :
  keyed_by_id s ->
  Forall2 stored_or_evaluated
    (ConditionSet._conditions s)
    (ConditionSet._conditions (fst (evaluate_set s))).
Proof.
  intros Hkeyed.
  destruct (first_raising_child (ConditionSet._conditions s))
    as [Hall|(pre & k & c & post & c' & e & Hconds & Hpre & Hc)].
  - assert (Hret : snd (evaluate_set s) = Returned).
    { rewrite ConditionSet_evaluate_completion, evaluate_children_completion.
      apply first_raised_Returned, Forall_map. exact Hall. }
    destruct (@ConditionSet_evaluate_returned O L s (fst (evaluate_set s)) Hkeyed)
      as (-> & _ & _).
    { rewrite <- Hret. apply surjective_pairing. }
    clear. induction (ConditionSet._conditions s) as [|kc rest IH]; simpl;
      constructor; auto.
  - rewrite (@ConditionSet_evaluate_raised O L s pre post k c c' e
               Hkeyed Hconds Hpre Hc).
    cbn [fst ConditionSet._conditions ConditionSet.set_conditions].
    rewrite Hconds. apply Forall2_app.
    + clear. induction pre as [|kc rest IH]; simpl; constructor; auto.
    + constructor.
      * split; [reflexivity|]. right. simpl. now rewrite Hc.
      * clear. induction post as [|kc rest IH]; constructor; auto.
Qed.

Lemma keyed_by_id_evaluate (s : ConditionSet.t node) :
  keyed_by_id s -> keyed_by_id (fst (evaluate_set s)).
Proof.
  intros [Hnd Hown].
  destruct (@ConditionSet_evaluate_frame O L s) as (_ & _ & Hconds).
  split.
  - unfold OrderedDict.well_formed. rewrite Hconds.
    rewrite evaluate_children_keys; [exact Hnd|exact Hown|apply incl_refl].
  - rewrite Hconds. now apply evaluate_children_own_key.
Qed.

Lemma node_evaluate_frame (n : node) :
  deeply_keyed n ->
  Forall2 same_context (subtree n) (subtree (fst (node_evaluate n)))
  /\ deeply_keyed (fst (node_evaluate n)).
Proof.
  induction n as [c|s IH] using node_induction; intros Hdeep.
  - split; [|now simpl; destruct (Condition.evaluate c)].
    pose proof (@Condition_evaluate_frame O L c) as (Hinst & _ & Hattr & Hid).
    simpl. destruct (Condition.evaluate c) as [c' r]. simpl in *.
    constructor; [|constructor]. repeat split; assumption.
  - apply deeply_keyed_Composite in Hdeep. destruct Hdeep as [Hkeyed Hdeep].
    rewrite node_evaluate_Composite. cbn [fst].
    assert (Hchildren :
      Forall2 (fun kc kc' =>
                 Forall2 same_context (subtree (snd kc)) (subtree (snd kc'))
                 /\ deeply_keyed (snd kc'))
        (ConditionSet._conditions s)
        (ConditionSet._conditions (fst (evaluate_set s)))).
    { eapply Forall2_refine with
        (P := fun kc => deeply_keyed (snd kc)
                        /\ (deeply_keyed (snd kc) ->
                            Forall2 same_context (subtree (snd kc))
                              (subtree (fst (node_evaluate (snd kc))))
                            /\ deeply_keyed (fst (node_evaluate (snd kc)))));
        [|exact (ConditionSet_evaluate_pointwise Hkeyed)|].
      - intros kc kc' [_ [Hsame|Hev]] [Hd Hstep]; rewrite ?Hsame, ?Hev.
        + split; [apply Forall2_same_context_refl|exact Hd].
        + exact (Hstep Hd).
      - clear Hkeyed. induction IH as [|kc rest Hk Hrest IHrest];
          constructor.
        + split; [exact (Forall_inv Hdeep)|exact Hk].
        + apply IHrest. exact (Forall_inv_tail Hdeep). }
    split.
    + simpl. constructor; [apply ConditionSet_evaluate_context|].
      apply Forall2_flat_map2.
      eapply Forall2_impl; [|exact Hchildren]. intros kc kc' [H _]. exact H.
    + apply deeply_keyed_Composite. split; [now apply keyed_by_id_evaluate|].
      clear Hkeyed Hdeep IH.
      induction Hchildren as [|kc kc' l l' [_ Hd] Hrest IHrest]; constructor;
        auto.
Qed.

(** X14. [evaluate] on a set changes no binding and no place in the tree,
    whether it returns or raises: the set and the nodes below it, at any
    depth, are the same nodes in the same order, each with the id, the
    evaluated instance and the evaluated attribute it had, and every
    dictionary is still keyed by the ids of its children. *)
Theorem ConditionSet_evaluate_keeps_context (s : ConditionSet.t node) :
  deeply_keyed (Composite s) ->
  Forall2 same_context
    (subtree (Composite s))
    (subtree
       (Composite
          (fst (ConditionSet.evaluate node_id node_is_valid node_evaluate s))))
  /\ deeply_keyed
       (Composite
          (fst (ConditionSet.evaluate node_id node_is_valid node_evaluate s))).
Proof.
  intros Hdeep.
  pose proof (node_evaluate_frame (Composite s) Hdeep) as H.
  now rewrite node_evaluate_Composite in H.
Qed.
End TreeEvaluateFrame.

(* ------------------------------------------------------------------------- *)
(** ** The evaluated attribute is not read by [evaluate] *)
(* ------------------------------------------------------------------------- *)

Lemma setitem_map_values (f : node -> node) (d : OrderedDict.t node) key v :
  OrderedDict.map_values f (OrderedDict.setitem d key v)
  = OrderedDict.setitem (OrderedDict.map_values f d) key (f v).
Proof.
  induction d as [|[k v0] rest IH]; simpl; [reflexivity|].
  destruct (k =? key); simpl; [reflexivity|now rewrite IH].
Qed.

Section AttributeAndEvaluate.
Context {O : ObjectModel} {L : PredicateLibrary}.
Variable name : string.

#[local] Abbreviation evaluate_children :=
  (ConditionSet.evaluate_children node_id node_evaluate).
#[local] Abbreviation evaluate_set :=
  (ConditionSet.evaluate node_id node_is_valid node_evaluate).
#[local] Abbreviation bound c := (fst (node_attribute name c)).
#[local] Abbreviation bound_set s :=
  (fst (ConditionSet.attribute node_attribute name s)).

Lemma BaseCondition_attribute_set_is_valid (b : BaseCondition.t) (v : value) :
  fst (BaseCondition.attribute name (BaseCondition.set_is_valid b v))
  = BaseCondition.set_is_valid (fst (BaseCondition.attribute name b)) v.
Proof.
  unfold BaseCondition.attribute. simpl.
  now destruct (hasattr (BaseCondition._evaluated_instance b) name).
Qed.

Lemma BaseCondition_attribute_is_valid (b : BaseCondition.t) :
  BaseCondition._is_valid (fst (BaseCondition.attribute name b))
  = BaseCondition._is_valid b.
Proof.
  unfold BaseCondition.attribute.
  now destruct (hasattr (BaseCondition._evaluated_instance b) name).
Qed.

Lemma node_attribute_is_valid (n : node) :
  node_is_valid (bound n) = node_is_valid n.
Proof.
  destruct n as [c|s].
  - simpl. unfold Condition.attribute.
    pose proof (BaseCondition_attribute_is_valid (Condition.base c)) as Hb.
    destruct (BaseCondition.attribute name (Condition.base c)). exact Hb.
  - rewrite node_attribute_Composite, ConditionSet_attribute_run. cbn [fst].
    apply BaseCondition_attribute_is_valid.
Qed.

Lemma node_attribute_id (n : node) : node_id (bound n) = node_id n.
Proof. apply (node_attribute_root name n). Qed.

Lemma Condition_attribute_evaluate (c : Condition.t) :
  Condition.evaluate (fst (Condition.attribute name c))
  = (fst (Condition.attribute name (fst (Condition.evaluate c))),
     snd (Condition.evaluate c)).
Proof.
  rewrite (Condition_evaluate_eq c).
  unfold Condition.attribute, BaseCondition.attribute.
  destruct (hasattr (BaseCondition._evaluated_instance (Condition.base c)) name)
    eqn:Hh; cbn [fst].
  - rewrite Condition_evaluate_eq. cbn.
    destruct (py_call (Condition._eval_function c) _); cbn; rewrite Hh;
      reflexivity.
  - rewrite Condition_evaluate_eq. cbn.
    destruct (py_call (Condition._eval_function c) _); cbn; rewrite Hh;
      reflexivity.
Qed.

Lemma bound_set_eq (s : ConditionSet.t node) :
  bound_set s
  = ConditionSet.mk
      (fst (BaseCondition.attribute name (ConditionSet.base s)))
      (ConditionSet._logical s)
      (OrderedDict.map_values (fun c => bound c) (ConditionSet._conditions s)).
Proof. now rewrite ConditionSet_attribute_run. Qed.

Lemma evaluate_children_attribute (items : list (string * node))
    (self : ConditionSet.t node) :
  Forall (fun kc =>
            node_evaluate (bound (snd kc))
            = (bound (fst (node_evaluate (snd kc))),
               snd (node_evaluate (snd kc)))) items ->
  evaluate_children (OrderedDict.map_values (fun c => bound c) items) (bound_set self)
  = (bound_set (fst (evaluate_children items self)),
     snd (evaluate_children items self)).
Proof.
  intros Hitems. revert self.
  induction Hitems as [|[k c] rest Hc Hrest IH]; intros self.
  - reflexivity.
  - cbn [OrderedDict.map_values map fst snd ConditionSet.evaluate_children] in *.
    rewrite Hc. destruct (node_evaluate c) as [c' [|e]]; cbn [fst snd].
    + rewrite <- IH. f_equal.
      rewrite !bound_set_eq. unfold ConditionSet.add_condition,
        ConditionSet.set_conditions.
      cbn [ConditionSet.base ConditionSet._logical ConditionSet._conditions].
      now rewrite setitem_map_values, node_attribute_id.
    + f_equal. rewrite !bound_set_eq. unfold ConditionSet.set_conditions.
      cbn [ConditionSet.base ConditionSet._logical ConditionSet._conditions].
      now rewrite setitem_map_values.
Qed.

Lemma ConditionSet_attribute_evaluate_run (s : ConditionSet.t node) :
  Forall (fun kc =>
            node_evaluate (bound (snd kc))
            = (bound (fst (node_evaluate (snd kc))),
               snd (node_evaluate (snd kc)))) (ConditionSet._conditions s) ->
  evaluate_set (bound_set s)
  = (bound_set (fst (evaluate_set s)), snd (evaluate_set s)).
Proof.
  intros Hitems.
  pose proof (evaluate_children_attribute s Hitems) as Hloop.
  unfold ConditionSet.evaluate, OrderedDict.items.
  assert (Hconds :
    ConditionSet._conditions (bound_set s)
    = OrderedDict.map_values (fun c => bound c) (ConditionSet._conditions s))
    by now rewrite bound_set_eq.
  rewrite Hconds, Hloop.
  destruct (evaluate_children (ConditionSet._conditions s) s) as [s1 [|e]];
    cbn [fst snd]; [|reflexivity].
  assert (Hstates :
    map (fun kc : string * node => node_is_valid (snd kc))
      (ConditionSet._conditions (bound_set s1))
    = map (fun kc : string * node => node_is_valid (snd kc))
        (ConditionSet._conditions s1)).
  { rewrite bound_set_eq. cbn [ConditionSet._conditions].
    unfold OrderedDict.map_values. rewrite map_map. apply map_ext.
    intros kc. apply node_attribute_is_valid. }
  assert (Hlogical :
    ConditionSet._logical (bound_set s1) = ConditionSet._logical s1)
    by now rewrite bound_set_eq.
  rewrite Hstates, Hlogical.
  assert (Hset : forall v,
    ConditionSet.set_is_valid (bound_set s1) v
    = bound_set (ConditionSet.set_is_valid s1 v)).
  { intros v. rewrite !bound_set_eq.
    unfold ConditionSet.set_is_valid, ConditionSet.set_base.
    cbn [ConditionSet.base ConditionSet._logical ConditionSet._conditions].
    now rewrite BaseCondition_attribute_set_is_valid. }
  destruct (ConditionSet._logical s1 =? "all");
    [|destruct (ConditionSet._logical s1 =? "any")];
    cbn [fst snd]; now rewrite Hset.
Qed.

Lemma node_attribute_Atomic (c : Condition.t) :
  node_attribute name (Atomic c)
  = (Atomic (fst (Condition.attribute name c)),
     snd (Condition.attribute name c)).
Proof. simpl. now destruct (Condition.attribute name c). Qed.

Lemma node_evaluate_Atomic (c : Condition.t) :
  node_evaluate (Atomic c)
  = (Atomic (fst (Condition.evaluate c)), snd (Condition.evaluate c)).
Proof. simpl. now destruct (Condition.evaluate c). Qed.

Lemma node_attribute_evaluate (n : node) :
  node_evaluate (bound n) = (bound (fst (node_evaluate n)), snd (node_evaluate n)).
Proof.
  induction n as [c|s IH] using node_induction.
  - rewrite node_attribute_Atomic. cbn [fst].
    rewrite !node_evaluate_Atomic. cbn [fst snd].
    rewrite node_attribute_Atomic. cbn [fst].
    now rewrite Condition_attribute_evaluate.
  - rewrite node_attribute_Composite. cbn [fst].
    rewrite !node_evaluate_Composite. cbn [fst snd].
    rewrite node_attribute_Composite. cbn [fst].
    now rewrite (ConditionSet_attribute_evaluate_run s IH).
Qed.

(** X15. The evaluated attribute plays no part in an evaluation. Binding
    an attribute name on a set before [evaluate] changes neither how
    [evaluate] ends nor any state it leaves but the attribute bindings
    themselves: evaluating the bound set gives the state of binding the
    evaluated set; the validity state of the set is the same. *)
Theorem ConditionSet_attribute_then_evaluate (s : ConditionSet.t node) :
  ConditionSet.evaluate node_id node_is_valid node_evaluate
    (fst (ConditionSet.attribute node_attribute name s))
  = (fst (ConditionSet.attribute node_attribute name
            (fst (ConditionSet.evaluate node_id node_is_valid node_evaluate s))),
     snd (ConditionSet.evaluate node_id node_is_valid node_evaluate s))
  /\ ConditionSet._is_valid
       (fst (ConditionSet.evaluate node_id node_is_valid node_evaluate
               (fst (ConditionSet.attribute node_attribute name s))))
     = ConditionSet._is_valid
         (fst (ConditionSet.evaluate node_id node_is_valid node_evaluate s)).
Proof.
  assert (Hrun :
    evaluate_set (bound_set s)
    = (bound_set (fst (evaluate_set s)), snd (evaluate_set s))).
  { apply ConditionSet_attribute_evaluate_run.
    apply Forall_forall. intros kc _. apply node_attribute_evaluate. }
  split; [exact Hrun|].
  rewrite Hrun. cbn [fst].
  pose proof (node_attribute_is_valid (Composite (fst (evaluate_set s)))) as Hv.
  rewrite node_attribute_Composite in Hv. exact Hv.
Qed.
End AttributeAndEvaluate.

(* ------------------------------------------------------------------------- *)
(** ** Conditions: selectors and literal operands *)
(* ------------------------------------------------------------------------- *)

Section Selectors.
Context {O : ObjectModel} {L : PredicateLibrary}.

(** X16. A selector of a predicate of one operand replaces the predicate
    selected before and leaves the operands alone: called after a
    selector of a predicate of two operands with operand [b], it makes
    [evaluate] call its own predicate, on the resolved [_a] and on the
    resolved [b] that the earlier selector stored. This holds for each of
    the eight selectors of one operand after each of the seven of two. *)
Theorem Condition_unary_selector_after_binary :
  Forall
    (fun unary =>
       Forall
         (fun binary =>
            forall (b : value) (c : Condition.t),
              Condition._b (fst unary (fst binary b c)) = b
              /\ Condition.evaluate (fst unary (fst binary b c))
                 = match call (snd unary)
                           [Condition._get_value c (Condition._a c);
                            Condition._get_value c b] with
                   | Return v =>
                       (Condition.set_is_valid
                          (resolved (fst unary (fst binary b c))) v,
                        Returned)
                   | Raise e => (resolved (fst unary (fst binary b c)), Raised e)
                   end)
         binary_selectors)
    unary_selectors.
Proof.
  repeat constructor.
Qed.

Lemma get_value_literal (c : Condition.t) (a : value) :
  is_str a = false -> Condition._get_value c a = a.
Proof. destruct a; try reflexivity. discriminate. Qed.

(** X17. A condition whose two operands are not strings is evaluated on
    the operands as they are: whatever target is bound, [evaluate] ends
    the same way with the same validity state, it leaves the operands
    as stored, and a second [evaluate] repeats the first. *)
Theorem Condition_literal_operands (c : Condition.t) :
  is_str (Condition._a c) = false ->
  is_str (Condition._b c) = false ->
  (forall x : value,
      Condition._is_valid (fst (Condition.evaluate (Condition.on x c)))
      = Condition._is_valid (fst (Condition.evaluate c))
      /\ snd (Condition.evaluate (Condition.on x c))
         = snd (Condition.evaluate c))
  /\ snd (Condition.evaluate c)
     = match py_call (Condition._eval_function c)
               [Condition._a c; Condition._b c] with
       | Return _ => Returned
       | Raise e => Raised e
       end
  /\ Condition._a (fst (Condition.evaluate c)) = Condition._a c
  /\ Condition._b (fst (Condition.evaluate c)) = Condition._b c
  /\ Condition.evaluate (fst (Condition.evaluate c)) = Condition.evaluate c.
Proof.
  intros Ha Hb.
  assert (Hrun : forall c', Condition._a c' = Condition._a c ->
                            Condition._b c' = Condition._b c ->
    Condition.evaluate c'
    = match py_call (Condition._eval_function c')
              [Condition._a c; Condition._b c] with
      | Return v =>
          (Condition.set_is_valid
             (Condition.set_b (Condition.set_a (Condition._reset c')
                                 (Condition._a c)) (Condition._b c)) v,
           Returned)
      | Raise e =>
          (Condition.set_b (Condition.set_a (Condition._reset c')
                              (Condition._a c)) (Condition._b c),
           Raised e)
      end).
  { intros c' Ha' Hb'. rewrite Condition_evaluate_eq. unfold resolved.
    rewrite Ha', Hb', !get_value_literal by assumption. reflexivity. }
  split; [|split; [|split; [|split]]].
  - intros x. rewrite (Hrun (Condition.on x c) eq_refl eq_refl).
    rewrite (Hrun c eq_refl eq_refl). simpl.
    destruct (py_call (Condition._eval_function c) _); split; reflexivity.
  - rewrite (Hrun c eq_refl eq_refl).
    now destruct (py_call (Condition._eval_function c) _).
  - rewrite Condition_evaluate_a. now apply get_value_literal.
  - rewrite Condition_evaluate_b. now apply get_value_literal.
  - rewrite (Hrun (fst (Condition.evaluate c))).
    + rewrite (Hrun c eq_refl eq_refl).
      destruct (py_call (Condition._eval_function c) _) eqn:Hcall; simpl;
        rewrite Hcall; reflexivity.
    + rewrite Condition_evaluate_a. now apply get_value_literal.
    + rewrite Condition_evaluate_b. now apply get_value_literal.
Qed.
End Selectors.

(* ------------------------------------------------------------------------- *)
(** ** Invariants of a set *)
(* ------------------------------------------------------------------------- *)

(** X18. A set created by [ConditionSet()] has its dictionary keyed by the
    ids of its children, and every method of the set keeps it so:
    [add_condition], [remove_condition], [reset], the three combinator
    selectors, [on], [attribute] and [evaluate]. *)
Theorem keyed_by_id_is_kept (O : ObjectModel) (L : PredicateLibrary)
    (s : ConditionSet.t node) :
  keyed_by_id s ->
  (forall uuid4 now user, keyed_by_id (ConditionSet.init uuid4 now user))
  /\ (forall condition,
        keyed_by_id (ConditionSet.add_condition node_id s condition))
  /\ (forall condition s',
        ConditionSet.remove_condition node_id s condition = Return s' ->
        keyed_by_id s')
  /\ keyed_by_id (ConditionSet.reset s)
  /\ keyed_by_id (ConditionSet.when_all_conditions_are_true s)
  /\ keyed_by_id (ConditionSet.when_any_condition_is_true s)
  /\ keyed_by_id (ConditionSet.when_no_conditions_are_true s)
  /\ (forall x, keyed_by_id (ConditionSet.on node_on x s))
  /\ (forall name,
        keyed_by_id (fst (ConditionSet.attribute node_attribute name s)))
  /\ keyed_by_id
       (fst (ConditionSet.evaluate node_id node_is_valid node_evaluate s)).
Proof.
  intros Hs. repeat split.
  - constructor.
  - constructor.
  - now apply keyed_by_id_add_condition.
  - now apply keyed_by_id_add_condition.
  - eapply keyed_by_id_remove_condition; eassumption.
  - eapply keyed_by_id_remove_condition; eassumption.
  - constructor.
  - constructor.
  - apply Hs.
  - apply Hs.
  - apply Hs.
  - apply Hs.
  - apply Hs.
  - apply Hs.
  - now apply keyed_by_id_on.
  - now apply keyed_by_id_on.
  - now apply keyed_by_id_attribute.
  - now apply keyed_by_id_attribute.
  - now apply keyed_by_id_evaluate.
  - now apply keyed_by_id_evaluate.
Qed.

(* ------------------------------------------------------------------------- *)
(** ** What a method of a set does to the conditions of the tree *)
(* ------------------------------------------------------------------------- *)

Lemma map_flat_map (A B C : Type) (f : B -> C) (g : A -> list B) (l : list A) :
  map f (flat_map g l) = flat_map (fun x => map f (g x)) l.
Proof.
  induction l as [|x rest IH]; simpl; [reflexivity|].
  now rewrite map_app, IH.
Qed.

Lemma node_on_conditions (x : value) (n : node) :
  conditions_of (node_on x n) = map (Condition.on x) (conditions_of n)
  /\ map node_is_valid (subtree (node_on x n)) = map node_is_valid (subtree n).
Proof.
  induction n as [c|s IH] using node_induction.
  - split; reflexivity.
  - change (node_on x (Composite s))
      with (Composite (ConditionSet.on node_on x s)).
    unfold ConditionSet.on, ConditionSet.set_conditions, ConditionSet.set_base.
    cbn [conditions_of subtree map ConditionSet._conditions ConditionSet.base
         ConditionSet._logical].
    rewrite !flat_map_map_values, !map_flat_map. split.
    + apply flat_map_ext_Forall.
      eapply Forall_impl; [|exact IH]. intros kc [H _]. exact H.
    + f_equal. apply flat_map_ext_Forall.
      eapply Forall_impl; [|exact IH]. intros kc [_ H]. exact H.
Qed.

Lemma node_on_attributes (x : value) (n : node) :
  map node_evaluated_attribute (subtree (node_on x n))
  = map node_evaluated_attribute (subtree n).
Proof.
  induction n as [c|s IH] using node_induction.
  - reflexivity.
  - change (node_on x (Composite s))
      with (Composite (ConditionSet.on node_on x s)).
    unfold ConditionSet.on, ConditionSet.set_conditions, ConditionSet.set_base.
    cbn [subtree map ConditionSet._conditions ConditionSet.base
         ConditionSet._logical].
    rewrite flat_map_map_values, !map_flat_map. f_equal.
    now apply flat_map_ext_Forall.
Qed.

Lemma node_on_bound (x : value) (n : node) :
  Forall (fun d => node_evaluated_instance d = x) (subtree n) ->
  node_on x n = n.
Proof.
  induction n as [c|s IH] using node_induction; intros Hall.
  - pose proof (Forall_inv Hall) as Hroot.
    destruct c as [[i cr ct v inst attr] a b aa ba f]. simpl in Hroot.
    unfold Condition._evaluated_instance in Hroot. simpl in Hroot.
    now rewrite <- Hroot.
  - pose proof (Forall_inv Hall) as Hroot.
    pose proof (Forall_inv_tail Hall) as Hbelow.
    change (node_on x (Composite s))
      with (Composite (ConditionSet.on node_on x s)).
    unfold ConditionSet.on, ConditionSet.set_conditions, ConditionSet.set_base.
    cbn [ConditionSet._conditions ConditionSet.base ConditionSet._logical].
    rewrite map_values_id_Forall.
    + destruct s as [[i cr ct v inst attr] l d]. simpl in Hroot.
      unfold ConditionSet._evaluated_instance in Hroot. simpl in Hroot.
      now rewrite <- Hroot.
    + simpl in Hbelow. apply Forall_flat_map in Hbelow. revert Hbelow.
      clear Hall Hroot.
      induction IH as [|kc rest Hk Hrest IHrest]; intros Hbelow;
        [constructor|].
      pose proof (Forall_inv Hbelow). pose proof (Forall_inv_tail Hbelow).
      constructor; auto.
Qed.

(** X6. On a set, and on everything below it, the last [on] wins: after
    [on(x)] and then [on(y)] the evaluated instance of the set and of
    every node below it is [y], and the state is the very state that
    [on(y)] alone gives, so the earlier [on(x)] leaves no trace. And [on]
    changes evaluated instances only: the validity state and the
    evaluated attribute of every node are the ones it had, and on a tree
    whose nodes are all bound to [x] already, [on(x)] changes nothing at
    all. *)
Theorem ConditionSet_on_last_wins (x y : value) (s : ConditionSet.t node) :
  ConditionSet.on node_on y (ConditionSet.on node_on x s)
  = ConditionSet.on node_on y s
  /\ Forall (fun d => node_evaluated_instance d = y)
       (subtree (Composite (ConditionSet.on node_on y (ConditionSet.on node_on x s))))
  /\ map node_is_valid (subtree (Composite (ConditionSet.on node_on x s)))
     = map node_is_valid (subtree (Composite s))
  /\ map node_evaluated_attribute
       (subtree (Composite (ConditionSet.on node_on x s)))
     = map node_evaluated_attribute (subtree (Composite s))
  /\ (Forall (fun d => node_evaluated_instance d = x) (subtree (Composite s)) ->
      ConditionSet.on node_on x s = s).
Proof.
  assert (Hcomposite : forall z t,
    node_on z (Composite t) = Composite (ConditionSet.on node_on z t))
    by reflexivity.
  split; [|split; [|split; [|split]]].
  - pose proof (node_on_twice x y (Composite s)) as H.
    rewrite !Hcomposite in H.
    exact (f_equal (fun n => match n with Composite t => t | Atomic _ => s end) H).
  - rewrite <- !Hcomposite. apply node_on_subtree.
  - rewrite <- Hcomposite. apply node_on_conditions.
  - rewrite <- Hcomposite. apply node_on_attributes.
  - intros Hall. pose proof (node_on_bound (Composite s) Hall) as H.
    rewrite Hcomposite in H.
    exact (f_equal (fun n => match n with Composite t => t | Atomic _ => s end) H).
Qed.

Section TreeConditions.
Context {O : ObjectModel}.

Lemma node_attribute_conditions (name : string) (n : node) :
  conditions_of (fst (node_attribute name n))
  = map (fun c => fst (Condition.attribute name c)) (conditions_of n)
  /\ map node_is_valid (subtree (fst (node_attribute name n)))
     = map node_is_valid (subtree n).
Proof.
  induction n as [c|s IH] using node_induction.
  - simpl. unfold Condition.attribute, BaseCondition.attribute.
    destruct (hasattr (BaseCondition._evaluated_instance (Condition.base c)) name);
      split; reflexivity.
  - rewrite node_attribute_Composite, ConditionSet_attribute_run.
    cbn [fst conditions_of subtree map ConditionSet._conditions].
    rewrite !flat_map_map_values, !map_flat_map. split.
    + apply flat_map_ext_Forall.
      eapply Forall_impl; [|exact IH]. intros kc [H _]. exact H.
    + f_equal.
      * unfold node_is_valid, ConditionSet.is_valid, BaseCondition.is_valid.
        cbn [ConditionSet.base]. unfold BaseCondition.attribute.
        now destruct (hasattr _ _).
      * apply flat_map_ext_Forall.
        eapply Forall_impl; [|exact IH]. intros kc [_ H]. exact H.
Qed.

(** X19. Binding through a set binds each condition of the tree as the
    condition's own method would, and evaluates nothing: after [on(x)]
    on a set the conditions of the tree are those it had, each after its
    own [on(x)], after [attribute(name)] each after its own
    [attribute(name)], and the validity state of every node of the tree
    is the one it had. *)
Theorem ConditionSet_binding_reaches_conditions
    (x : value) (name : string) (s : ConditionSet.t node) :
  conditions_of (Composite (ConditionSet.on node_on x s))
  = map (Condition.on x) (conditions_of (Composite s))
  /\ map node_is_valid (subtree (Composite (ConditionSet.on node_on x s)))
     = map node_is_valid (subtree (Composite s))
  /\ conditions_of
       (Composite (fst (ConditionSet.attribute node_attribute name s)))
     = map (fun c => fst (Condition.attribute name c))
         (conditions_of (Composite s))
  /\ map node_is_valid
       (subtree (Composite (fst (ConditionSet.attribute node_attribute name s))))
     = map node_is_valid (subtree (Composite s)).
Proof.
  destruct (node_on_conditions x (Composite s)) as [Hon Hon'].
  destruct (node_attribute_conditions name (Composite s)) as [Hattr Hattr'].
  rewrite node_attribute_Composite in Hattr, Hattr'.
  repeat split; assumption.
Qed.
End TreeConditions.

Section TreeConditionsEvaluate.
Context {O : ObjectModel} {L : PredicateLibrary}.

Lemma node_evaluate_conditions (n : node) :
  deeply_keyed n ->
  snd (node_evaluate n) = Returned ->
  conditions_of (fst (node_evaluate n))
  = map (fun c => fst (Condition.evaluate c)) (conditions_of n).
Proof.
  induction n as [c|s IH] using node_induction; intros Hdeep Hret.
  - now rewrite node_evaluate_Atomic.
  - apply deeply_keyed_Composite in Hdeep. destruct Hdeep as [Hkeyed Hdeep].
    rewrite node_evaluate_Composite in *. cbn [fst snd] in *.
    destruct (@ConditionSet_evaluate_returned O L s
                (fst (ConditionSet.evaluate node_id node_is_valid node_evaluate s))
                Hkeyed) as (Hconds & Hall & _).
    { rewrite <- Hret. apply surjective_pairing. }
    cbn [conditions_of]. rewrite Hconds, flat_map_map_values, map_flat_map.
    apply flat_map_ext_Forall.
    clear Hconds Hret Hkeyed.
    induction IH as [|kc rest Hk Hrest IHrest]; [constructor|].
    constructor.
    + apply Hk; [exact (Forall_inv Hdeep)|exact (Forall_inv Hall)].
    + apply IHrest; [exact (Forall_inv_tail Hdeep)|exact (Forall_inv_tail Hall)].
Qed.

(** X20. When [evaluate] on a set returns, every condition of the tree, at
    any depth, has been evaluated exactly once: the conditions of the
    tree are those it had, in the same order, each in the state its own
    [evaluate] leaves. *)
Theorem ConditionSet_evaluate_reaches_conditions (s s' : ConditionSet.t node) :
  deeply_keyed (Composite s) ->
  ConditionSet.evaluate node_id node_is_valid node_evaluate s = (s', Returned) ->
  conditions_of (Composite s')
  = map (fun c => fst (Condition.evaluate c)) (conditions_of (Composite s)).
Proof.
  intros Hdeep Hrun.
  pose proof (node_evaluate_conditions (Composite s) Hdeep) as H.
  rewrite node_evaluate_Composite, Hrun in H. now apply H.
Qed.
End TreeConditionsEvaluate.

(* ------------------------------------------------------------------------- *)
(** ** Further scenarios *)
(* ------------------------------------------------------------------------- *)

Section FurtherScenarios.
Import Scenario Examples.
#[local] Existing Instance data_attributes.
#[local] Existing Instance utils_model_library.

Ltac keys_differ := repeat constructor; simpl; intuition discriminate.

Lemma unconfigured_keyed_by_id : keyed_by_id unconfigured.
Proof. split; [keys_differ|repeat constructor]. Defined.

Lemma nested_deeply_keyed : deeply_keyed (Composite nested).
Proof.
  simpl. repeat split; try (repeat constructor; fail); keys_differ.
Defined.

Lemma add_condition_then_get_condition_witness :
  node_id (Atomic (greater "c9" 2 1)) <> node_id (Atomic (greater "c1" 5 3))
  /\ ConditionSet.get_condition node_id
       (ConditionSet.add_condition node_id mixed (Atomic (greater "c9" 2 1)))
       (Atomic (greater "c1" 5 3))
     = Return (Atomic (greater "c1" 5 3)).
Proof.
  assert (Hne : node_id (Atomic (greater "c9" 2 1))
                <> node_id (Atomic (greater "c1" 5 3))) by discriminate.
  split; [exact Hne|].
  destruct (add_condition_then_get_condition mixed
              (Atomic (greater "c9" 2 1)) (Atomic (greater "c1" 5 3)))
    as [_ Hother].
  rewrite (Hother Hne). reflexivity.
Defined.

Lemma unknown_condition_is_a_KeyError_witness :
  ~ In (node_id (Atomic (new_Condition "c9")))
      (OrderedDict.keys (ConditionSet._conditions mixed))
  /\ ConditionSet.get_condition node_id mixed (Atomic (new_Condition "c9"))
     = Raise (KeyError "c9").
Proof.
  assert (Hnin : ~ In (node_id (Atomic (new_Condition "c9")))
                     (OrderedDict.keys (ConditionSet._conditions mixed)))
    by (simpl; intuition discriminate).
  split; [exact Hnin|].
  exact (proj1 (unknown_condition_is_a_KeyError mixed
                  (Atomic (new_Condition "c9")) Hnin)).
Defined.

Lemma add_condition_keys_witness :
  In (node_id (Atomic (greater "c1" 9 3)))
    (OrderedDict.keys (ConditionSet._conditions mixed))
  /\ OrderedDict.keys
       (ConditionSet._conditions
          (ConditionSet.add_condition node_id mixed (Atomic (greater "c1" 9 3))))
     = ["c1"; "c2"]
  /\ ConditionSet._conditions
       (ConditionSet.add_condition node_id mixed (Atomic (greater "c1" 9 3)))
     = [("c1", Atomic (greater "c1" 9 3)); ("c2", Atomic (greater "c2" 1 3))].
Proof.
  assert (Hin : In (node_id (Atomic (greater "c1" 9 3)))
                  (OrderedDict.keys (ConditionSet._conditions mixed)))
    by (simpl; tauto).
  split; [exact Hin|].
  destruct (add_condition_keys mixed (Atomic (greater "c1" 9 3)))
    as (Hkeep & Hslot & _).
  split; [rewrite (Hkeep Hin); reflexivity|].
  rewrite (Hslot [] (Atomic (greater "c1" 5 3))
             [("c2", Atomic (greater "c2" 1 3))] eq_refl (fun H => H)).
  reflexivity.
Defined.

Lemma add_condition_then_remove_condition_witness :
  ~ In (node_id (Atomic (new_Condition "c9")))
      (OrderedDict.keys (ConditionSet._conditions mixed))
  /\ ConditionSet.remove_condition node_id
       (ConditionSet.add_condition node_id mixed (Atomic (new_Condition "c9")))
       (Atomic (new_Condition "c9"))
     = Return mixed.
Proof.
  assert (Hnin : ~ In (node_id (Atomic (new_Condition "c9")))
                     (OrderedDict.keys (ConditionSet._conditions mixed)))
    by (simpl; intuition discriminate).
  split; [exact Hnin|].
  exact (add_condition_then_remove_condition mixed
           (Atomic (new_Condition "c9")) Hnin).
Defined.

Lemma remove_condition_removes_witness :
  keyed_by_id mixed
  /\ exists s',
      ConditionSet.remove_condition node_id mixed (Atomic (greater "c1" 5 3))
      = Return s'
      /\ OrderedDict.keys (ConditionSet._conditions s') = ["c2"]
      /\ ConditionSet.get_condition node_id s' (Atomic (greater "c1" 5 3))
         = Raise (KeyError "c1").
Proof.
  split; [exact mixed_keyed_by_id|].
  eexists. split; [reflexivity|].
  destruct (remove_condition_removes (Atomic (greater "c1" 5 3))
              mixed_keyed_by_id eq_refl) as (_ & Hkeys & Hget & _).
  split; [rewrite Hkeys; reflexivity|exact Hget].
Defined.

Lemma ConditionSet_on_last_wins_witness :
  Forall (fun d => node_evaluated_instance d = point)
    (subtree (Composite (ConditionSet.on node_on point nested)))
  /\ ConditionSet.on node_on point (ConditionSet.on node_on point nested)
     = ConditionSet.on node_on point nested
  /\ map node_evaluated_instance
       (subtree
          (Composite
             (ConditionSet.on node_on numbers (ConditionSet.on node_on point nested))))
     = [numbers; numbers; numbers; numbers; numbers].
Proof.
  assert (Hbound :
    Forall (fun d => node_evaluated_instance d = point)
      (subtree (Composite (ConditionSet.on node_on point nested))))
    by (repeat constructor).
  destruct (ConditionSet_on_last_wins point point
              (ConditionSet.on node_on point nested)) as (_ & _ & _ & _ & Hsame).
  split; [exact Hbound|]. split; [exact (Hsame Hbound)|reflexivity].
Defined.

Lemma ConditionSet_on_then_attribute_witness :
  hasattr point "x" = true
  /\ hasattr point "z" = false
  /\ map node_evaluated_attribute
       (subtree
          (Composite
             (fst (ConditionSet.attribute node_attribute "x"
                     (ConditionSet.on node_on point nested)))))
     = [Some "x"; Some "x"; Some "x"; Some "x"; Some "x"]
  /\ snd (ConditionSet.attribute node_attribute "z"
            (ConditionSet.on node_on point nested))
     = repeat "z is not a valid attribute for the Point class." 5.
Proof.
  destruct (ConditionSet_on_then_attribute point "x" nested) as [Haccept _].
  destruct (ConditionSet_on_then_attribute point "z" nested) as [_ Hrefuse].
  split; [reflexivity|]. split; [reflexivity|]. split.
  - reflexivity.
  - rewrite (Hrefuse eq_refl). reflexivity.
Defined.

Lemma ConditionSet_evaluate_ends_as_first_raising_witness :
  snd (ConditionSet.evaluate node_id node_is_valid node_evaluate unconfigured)
  = Raised (TypeError "'NoneType' object is not callable").
Proof.
  rewrite (proj1 (ConditionSet_evaluate_ends_as_first_raising unconfigured)).
  reflexivity.
Defined.

Lemma ConditionSet_combinators_agree_witness :
  exists sa,
    ConditionSet.evaluate node_id node_is_valid node_evaluate
      (ConditionSet.when_any_condition_is_true mixed) = (sa, Returned)
    /\ ConditionSet._is_valid sa = VBool true
    /\ ConditionSet._is_valid
         (fst (ConditionSet.evaluate node_id node_is_valid node_evaluate
                 (ConditionSet.when_no_conditions_are_true mixed)))
       = VBool false.
Proof.
  assert (Hrun :
    ConditionSet.evaluate node_id node_is_valid node_evaluate
      (ConditionSet.when_any_condition_is_true mixed)
    = (fst (ConditionSet.evaluate node_id node_is_valid node_evaluate
              (ConditionSet.when_any_condition_is_true mixed)),
       Returned)) by reflexivity.
  eexists. split; [exact Hrun|]. split; [reflexivity|].
  destruct (@ConditionSet_combinators_agree data_attributes utils_model_library
              mixed _ Hrun)
    as (sn & sl & any_true & all_true & Hn & _ & _ & _ & Ha & Hv & _).
  rewrite Hn. cbn [fst]. rewrite Hv.
  injection Ha as <-. reflexivity.
Defined.

Lemma ConditionSet_evaluate_child_raises_witness :
  keyed_by_id unconfigured
  /\ ConditionSet._conditions unconfigured
     = ([("c1", Atomic (greater "c1" 5 3))]
        ++ ("c2", Atomic (new_Condition "c2"))
        :: [("c3", Atomic (greater "c3" 1 3))])%list
  /\ ConditionSet.evaluate node_id node_is_valid node_evaluate unconfigured
     = (ConditionSet.set_conditions unconfigured
          [("c1", Atomic (Condition.set_is_valid (greater "c1" 5 3) (VBool true)));
           ("c2", Atomic (new_Condition "c2"));
           ("c3", Atomic (greater "c3" 1 3))],
        Raised (TypeError "'NoneType' object is not callable"))
  /\ ConditionSet._is_valid
       (fst (ConditionSet.evaluate node_id node_is_valid node_evaluate
               unconfigured))
     = VBool true.
Proof.
  split; [exact unconfigured_keyed_by_id|]. split; [reflexivity|].
  assert (Hbefore :
    Forall (fun kc : string * node => snd (node_evaluate (snd kc)) = Returned)
      [("c1", Atomic (greater "c1" 5 3))])
    by (constructor; [reflexivity|constructor]).
  assert (Hraises :
    node_evaluate (Atomic (new_Condition "c2"))
    = (Atomic (new_Condition "c2"),
       Raised (TypeError "'NoneType' object is not callable")))
    by reflexivity.
  destruct (@ConditionSet_evaluate_child_raises data_attributes
              utils_model_library unconfigured
              [("c1", Atomic (greater "c1" 5 3))]
              [("c3", Atomic (greater "c3" 1 3))]
              "c2" (Atomic (new_Condition "c2")) (Atomic (new_Condition "c2"))
              (TypeError "'NoneType' object is not callable")
              unconfigured_keyed_by_id eq_refl Hbefore Hraises)
    as [Hrun Hvalid].
  split; [rewrite Hrun; reflexivity|rewrite Hvalid; reflexivity].
Defined.

Lemma ConditionSet_evaluate_is_verdict_witness :
  deeply_keyed (Composite nested)
  /\ exists s',
      ConditionSet.evaluate node_id node_is_valid node_evaluate nested
      = (s', Returned)
      /\ verdict (Composite nested) = true
      /\ ConditionSet._is_valid s' = VBool true.
Proof.
  split; [exact nested_deeply_keyed|].
  eexists. split; [reflexivity|]. split; [reflexivity|].
  rewrite (@ConditionSet_evaluate_is_verdict data_attributes utils_model_library
             nested _ nested_deeply_keyed eq_refl).
  reflexivity.
Defined.

Lemma ConditionSet_evaluate_keeps_context_witness :
  deeply_keyed (Composite nested)
  /\ map node_id
       (subtree
          (Composite
             (fst (ConditionSet.evaluate node_id node_is_valid node_evaluate
                     nested))))
     = ["s1"; "s2"; "c3"; "c4"; "c2"]
  /\ deeply_keyed
       (Composite
          (fst (ConditionSet.evaluate node_id node_is_valid node_evaluate
                  nested))).
Proof.
  split; [exact nested_deeply_keyed|].
  destruct (@ConditionSet_evaluate_keeps_context data_attributes
              utils_model_library nested nested_deeply_keyed) as [_ Hdeep].
  split; [reflexivity|exact Hdeep].
Defined.

Lemma Condition_literal_operands_witness :
  is_str (Condition._a (greater "c1" 5 3)) = false
  /\ is_str (Condition._b (greater "c1" 5 3)) = false
  /\ Condition._is_valid
       (fst (Condition.evaluate (Condition.on point (greater "c1" 5 3))))
     = VBool true.
Proof.
  split; [reflexivity|]. split; [reflexivity|].
  destruct (@Condition_literal_operands data_attributes utils_model_library
              (greater "c1" 5 3) eq_refl eq_refl) as [Hany _].
  destruct (Hany point) as [Hvalid _]. rewrite Hvalid. reflexivity.
Defined.

Lemma keyed_by_id_is_kept_witness :
  keyed_by_id mixed
  /\ keyed_by_id
       (fst (ConditionSet.evaluate node_id node_is_valid node_evaluate
               (ConditionSet.on node_on point mixed))).
Proof.
  split; [exact mixed_keyed_by_id|].
  destruct (keyed_by_id_is_kept data_attributes utils_model_library
              mixed_keyed_by_id) as (_ & _ & _ & _ & _ & _ & _ & Hon & _).
  destruct (keyed_by_id_is_kept data_attributes utils_model_library
              (Hon point)) as (_ & _ & _ & _ & _ & _ & _ & _ & _ & Hevaluate).
  exact Hevaluate.
Defined.

Lemma ConditionSet_evaluate_reaches_conditions_witness :
  deeply_keyed (Composite nested)
  /\ exists s',
      ConditionSet.evaluate node_id node_is_valid node_evaluate nested
      = (s', Returned)
      /\ map Condition._is_valid (conditions_of (Composite s'))
         = [VBool true; VBool true; VBool false].
Proof.
  split; [exact nested_deeply_keyed|].
  eexists. split; [reflexivity|].
  rewrite (@ConditionSet_evaluate_reaches_conditions data_attributes
             utils_model_library nested _ nested_deeply_keyed eq_refl).
  reflexivity.
Defined.
End FurtherScenarios.
